(** * Mojibake repair scripts: a shallow embedding and its properties

    The development follows [wallet/fix_encoding.py] (the table-driven
    substitution, the re-decode callback and the regular-expression pass)
    and [public/wallet/fix_all_files.py] (the batch loop).

    A Python [str] is a sequence of Unicode code points and is modelled as
    a list of integers; [bytes] are lists of integers below 256.  Python
    exceptions are modelled by a result type: [try]/[except] is a match on
    it. *)

From Stdlib Require Import ZArith List Bool Lia.
Import ListNotations.
Open Scope Z_scope.

(** ** Strings, bytes and exceptions *)

Definition char := Z.
Definition str := list char.
Definition bytes := list Z.

(** A call either returns a value or raises an exception object. *)
Inductive outcome (E A : Type) : Type :=
| Ok (a : A)
| Raise (e : E).

Arguments Ok {E A} a.
Arguments Raise {E A} e.

(** The exceptions of the codecs and of opening a file. *)
Inductive exn : Type :=
| UnicodeEncodeError
| UnicodeDecodeError
| OSError.

Definition result : Type -> Type := outcome exn.

Definition bind {E A B : Type} (r : outcome E A) (k : A -> outcome E B)
  : outcome E B :=
  match r with
  | Ok a => k a
  | Raise e => Raise e
  end.

Notation "x <- r ;; k" := (bind r (fun x => k))
  (at level 61, r at next level, right associativity).

(** [try: body except: handler] with a bare [except], which catches every
    exception. *)
Definition try_except {A : Type} (body handler : result A) : result A :=
  match body with
  | Ok a => Ok a
  | Raise _ => handler
  end.

(** ** The codecs of the Python library used by the script *)

(** [text.encode('latin-1')]: each code point below 256 is its own byte;
    any other code point raises. *)
Fixpoint encode_latin1 (text : str) : result bytes :=
  match text with
  | [] => Ok []
  | c :: t =>
      if (0 <=? c) && (c <=? 0xFF)
      then bs <- encode_latin1 t ;; Ok (c :: bs)
      else Raise UnicodeEncodeError
  end.

(** The byte of one code point in Python's [cp1252] codec.  Bytes 0x81,
    0x8D, 0x8F, 0x90 and 0x9D are unassigned there, so the C1 controls do
    not encode at all. *)
Definition cp1252_byte (c : char) : option Z :=
  if (0 <=? c) && (c <=? 0x7F) then Some c
  else if (0xA0 <=? c) && (c <=? 0xFF) then Some c
  else if c =? 0x20AC then Some 0x80
  else if c =? 0x201A then Some 0x82
  else if c =? 0x0192 then Some 0x83
  else if c =? 0x201E then Some 0x84
  else if c =? 0x2026 then Some 0x85
  else if c =? 0x2020 then Some 0x86
  else if c =? 0x2021 then Some 0x87
  else if c =? 0x02C6 then Some 0x88
  else if c =? 0x2030 then Some 0x89
  else if c =? 0x0160 then Some 0x8A
  else if c =? 0x2039 then Some 0x8B
  else if c =? 0x0152 then Some 0x8C
  else if c =? 0x017D then Some 0x8E
  else if c =? 0x2018 then Some 0x91
  else if c =? 0x2019 then Some 0x92
  else if c =? 0x201C then Some 0x93
  else if c =? 0x201D then Some 0x94
  else if c =? 0x2022 then Some 0x95
  else if c =? 0x2013 then Some 0x96
  else if c =? 0x2014 then Some 0x97
  else if c =? 0x02DC then Some 0x98
  else if c =? 0x2122 then Some 0x99
  else if c =? 0x0161 then Some 0x9A
  else if c =? 0x203A then Some 0x9B
  else if c =? 0x0153 then Some 0x9C
  else if c =? 0x017E then Some 0x9E
  else if c =? 0x0178 then Some 0x9F
  else None.

(** [text.encode('cp1252')]. *)
Fixpoint encode_cp1252 (text : str) : result bytes :=
  match text with
  | [] => Ok []
  | c :: t =>
      match cp1252_byte c with
      | Some b => bs <- encode_cp1252 t ;; Ok (b :: bs)
      | None => Raise UnicodeEncodeError
      end
  end.

Definition between (lo hi b : Z) : bool := (lo <=? b) && (b <=? hi).

(** A UTF-8 continuation byte, 10xxxxxx. *)
Definition is_cont (b : Z) : bool := between 0x80 0xBF b.

Definition cont_bits (b : Z) : Z := Z.land b 0x3F.

(** The code point of a two-, three- and four-byte sequence. *)
Definition code_point2 (b c1 : Z) : char :=
  Z.lor (Z.shiftl (Z.land b 0x1F) 6) (cont_bits c1).

Definition code_point3 (b c1 c2 : Z) : char :=
  Z.lor (Z.shiftl (Z.land b 0x0F) 12)
    (Z.lor (Z.shiftl (cont_bits c1) 6) (cont_bits c2)).

Definition code_point4 (b c1 c2 c3 : Z) : char :=
  Z.lor (Z.shiftl (Z.land b 0x07) 18)
    (Z.lor (Z.shiftl (cont_bits c1) 12)
       (Z.lor (Z.shiftl (cont_bits c2) 6) (cont_bits c3))).

(** [bs.decode('utf-8')] in strict mode: shortest form only, no
    surrogates, nothing above U+10FFFF; a malformed or truncated sequence
    raises. *)
Fixpoint decode_utf8 (bs : bytes) : result str :=
  match bs with
  | [] => Ok []
  | b :: t =>
      if between 0x00 0x7F b then
        s <- decode_utf8 t ;; Ok (b :: s)
      else if between 0xC2 0xDF b then
        match t with
        | c1 :: t1 =>
            if is_cont c1 then
              s <- decode_utf8 t1 ;;
              Ok (code_point2 b c1 :: s)
            else Raise UnicodeDecodeError
        | _ => Raise UnicodeDecodeError
        end
      else if between 0xE0 0xEF b then
        match t with
        | c1 :: c2 :: t2 =>
            if between (if b =? 0xE0 then 0xA0 else 0x80)
                       (if b =? 0xED then 0x9F else 0xBF) c1
               && is_cont c2 then
              s <- decode_utf8 t2 ;;
              Ok (code_point3 b c1 c2 :: s)
            else Raise UnicodeDecodeError
        | _ => Raise UnicodeDecodeError
        end
      else if between 0xF0 0xF4 b then
        match t with
        | c1 :: c2 :: c3 :: t3 =>
            if between (if b =? 0xF0 then 0x90 else 0x80)
                       (if b =? 0xF4 then 0x8F else 0xBF) c1
               && is_cont c2 && is_cont c3 then
              s <- decode_utf8 t3 ;;
              Ok (code_point4 b c1 c2 c3 :: s)
            else Raise UnicodeDecodeError
        | _ => Raise UnicodeDecodeError
        end
      else Raise UnicodeDecodeError
  end.

(** ** [str.replace] *)

(** [s.startswith(p)]. *)
Fixpoint starts_with (p s : str) : bool :=
  match p, s with
  | [], _ => true
  | _ :: _, [] => false
  | a :: p', b :: s' => (a =? b) && starts_with p' s'
  end.

(** The left-to-right scan of [str.replace] for a non-empty [old]: at a
    position where [old] starts, [new] is emitted and the scan resumes
    after the occurrence ([skip] counts the characters of the occurrence
    still to be passed over); elsewhere the character is copied. *)
Fixpoint replace_from (old new : str) (skip : nat) (s : str) : str :=
  match s with
  | [] => []
  | c :: t =>
      match skip with
      | S k => replace_from old new k t
      | O =>
          if starts_with old s
          then new ++ replace_from old new (Nat.pred (length old)) t
          else c :: replace_from old new 0 t
      end
  end.

(** [s.replace(old, new)]: every non-overlapping occurrence, leftmost
    first.  An empty [old] matches between all characters and at both
    ends. *)
Definition replace (old new s : str) : str :=
  match old with
  | [] => new ++ flat_map (fun c => c :: new) s
  | _ :: _ => replace_from old new 0 s
  end.

(** ** [re.sub] with the pattern of the script *)

(** The marker character, U+00C3 (A with tilde). *)
Definition marker : char := 0xC3.

(** [\s] on [str] patterns: the characters for which [str.isspace] holds. *)
Definition is_space (c : char) : bool :=
  between 0x09 0x0D c || between 0x1C 0x20 c || (c =? 0x85) || (c =? 0xA0)
  || (c =? 0x1680) || between 0x2000 0x200A c || (c =? 0x2028)
  || (c =? 0x2029) || (c =? 0x202F) || (c =? 0x205F) || (c =? 0x3000).

(** The character class [[^\s<>]]. *)
Definition in_class (c : char) : bool :=
  negb (is_space c || (c =? 0x3C) || (c =? 0x3E)).

(** The longest prefix of [s] of at most [n] characters of the class:
    the greedy quantifier. *)
Fixpoint take_run (n : nat) (s : str) : str :=
  match n, s with
  | S n', c :: t => if in_class c then c :: take_run n' t else []
  | _, _ => []
  end.

(** The match of [pattern], the marker followed by one to twenty class
    characters, anchored at the start of [s]. *)
Definition pattern_match (s : str) : option str :=
  match s with
  | c :: t =>
      if c =? marker then
        match take_run 20 t with
        | [] => None
        | run => Some (c :: run)
        end
      else None
  | [] => None
  end.

(** [re.sub(pattern, repl, s)] with a callable [repl]: matches are found
    left to right without overlap, each is replaced by what the callback
    returns, and an exception of the callback propagates. *)
Fixpoint sub_from (repl : str -> result str) (skip : nat) (s : str)
  : result str :=
  match s with
  | [] => Ok []
  | c :: t =>
      match skip with
      | S k => sub_from repl k t
      | O =>
          match pattern_match s with
          | Some m =>
              r <- repl m ;;
              rest <- sub_from repl (Nat.pred (length m)) t ;;
              Ok (r ++ rest)
          | None =>
              rest <- sub_from repl 0 t ;; Ok (c :: rest)
          end
      end
  end.

Definition re_sub (repl : str -> result str) (s : str) : result str :=
  sub_from repl 0 s.

(** ** The script [fix_encoding.py] *)

(** The dictionary [replacements], as its items in insertion order (the
    order in which the loop visits them). *)
Definition replacements : list (str * str) :=
  [
    (* Cheese emoji *)
    ([0xC3; 0x192; 0xC2; 0xB0; 0xC3; 0x2026; 0xC2; 0xB8; 0xC3; 0x201A; 0xC2;
      0xA7; 0xC3; 0xA2; 0xE2; 0x20AC; 0x161; 0xC2; 0xAC],
     [0x1F9C0]);
    (* Green circle *)
    ([0xC3; 0x192; 0xC2; 0xB0; 0xC3; 0x2026; 0xC2; 0xB8; 0xC3; 0x2026; 0xC2;
      0xB8; 0xC3; 0x201A; 0xC2; 0xA2],
     [0x1F7E2]);
    (* Red circle *)
    ([0xC3; 0x192; 0xC2; 0xB0; 0xC3; 0x2026; 0xC2; 0xB8; 0xC3; 0xA2; 0xE2;
      0x201A; 0xAC; 0xC2; 0xC3; 0x201A; 0xC2; 0xB4],
     [0x1F534]);
    (* Money bag *)
    ([0xC3; 0x192; 0xC2; 0xB0; 0xC3; 0x2026; 0xC2; 0xB8; 0xC3; 0xA2; 0xE2;
      0x201A; 0xAC; 0xE2; 0x201E; 0xA2; 0xC3; 0x201A; 0xC2; 0xB0],
     [0x1F4B0]);
    (* Credit card *)
    ([0xC3; 0x192; 0xC2; 0xB0; 0xC3; 0x2026; 0xC2; 0xB8; 0xC3; 0xA2; 0xE2;
      0x201A; 0xAC; 0xE2; 0x201E; 0xA2; 0xC3; 0x201A; 0xC2; 0xB3],
     [0x1F4B3]);
    (* Globe *)
    ([0xC3; 0x192; 0xC2; 0xB0; 0xC3; 0x2026; 0xC2; 0xB8; 0xC3; 0x2026; 0xE2;
      0x20AC; 0x2122; 0xC3; 0x201A; 0xC2],
     [0x1F310]);
    (* Blue circle *)
    ([0xC3; 0x192; 0xC2; 0xB0; 0xC3; 0x2026; 0xC2; 0xB8; 0xC3; 0xA2; 0xE2;
      0x201A; 0xAC; 0xC2; 0xC3; 0x201A; 0xC2; 0xB5],
     [0x1F535]);
    (* Diamond/gem *)
    ([0xC3; 0x192; 0xC2; 0xB0; 0xC3; 0x2026; 0xC2; 0xB8; 0xC3; 0xA2; 0xE2;
      0x201A; 0xAC; 0xE2; 0x201E; 0xA2; 0xC3; 0x2026; 0xC2; 0xBD],
     [0x1F48E]);
    (* Bank *)
    ([0xC3; 0x192; 0xC2; 0xB0; 0xC3; 0x2026; 0xC2; 0xB8; 0xC3; 0x201A; 0xC2;
      0xC3; 0x201A; 0xC2; 0xA6],
     [0x1F3E6]);
    (* Lock *)
    ([0xC3; 0x192; 0xC2; 0xB0; 0xC3; 0x2026; 0xC2; 0xB8; 0xC3; 0xA2; 0xE2;
      0x201A; 0xAC; 0xC2; 0xC3; 0x2026; 0xE2; 0x20AC; 0x2122],
     [0x1F512]);
    (* Bridge *)
    ([0xC3; 0x192; 0xC2; 0xB0; 0xC3; 0x2026; 0xC2; 0xB8; 0xC3; 0x2026; 0xE2;
      0x20AC; 0x2122; 0xC3; 0xA2; 0xE2; 0x201A; 0xAC; 0xC2; 0xB0],
     [0x1F309]);
    (* Plus sign *)
    ([0xC3; 0x192; 0xC2; 0xA2; 0xC3; 0x2026; 0xC2; 0xBE; 0xC3; 0xA2; 0xE2;
      0x201A; 0xAC; 0xC2; 0xA2],
     [0x2795]);
    (* Money with wings *)
    ([0xC3; 0x192; 0xC2; 0xB0; 0xC3; 0x2026; 0xC2; 0xB8; 0xC3; 0xA2; 0xE2;
      0x201A; 0xAC; 0xE2; 0x201E; 0xA2; 0xC3; 0x201A; 0xC2; 0xB8],
     [0x1F4B8]);
    (* Warning *)
    ([0xC3; 0x192; 0xC2; 0xA2; 0xC3; 0x2026; 0xC2; 0xA1; 0xC3; 0x201A; 0xC2;
      0x20; 0xC3; 0x192; 0xC2; 0xAF; 0xC3; 0x201A; 0xC2; 0xB8; 0xC3; 0x201A;
      0xC2],
     [0x26A0; 0xFE0F]);
    (* Gear *)
    ([0xC3; 0x192; 0xC2; 0xA2; 0xC3; 0x2026; 0xC2; 0xA1; 0xC3; 0xA2; 0xE2;
      0x20AC; 0x17E; 0xC2; 0xA2; 0xC3; 0x192; 0xC2; 0xAF; 0xC3; 0x201A;
      0xC2; 0xB8; 0xC3; 0x201A; 0xC2],
     [0x2699; 0xFE0F]);
    (* Key *)
    ([0xC3; 0x192; 0xC2; 0xB0; 0xC3; 0x2026; 0xC2; 0xB8; 0xC3; 0xA2; 0xE2;
      0x201A; 0xAC; 0xC2; 0xC3; 0xA2; 0xE2; 0x201A; 0xAC; 0xCB; 0x153],
     [0x1F510]);
    (* Inbox *)
    ([0xC3; 0x192; 0xC2; 0xB0; 0xC3; 0x2026; 0xC2; 0xB8; 0xC3; 0xA2; 0xE2;
      0x201A; 0xAC; 0xC5; 0x22; 0xC3; 0x201A; 0xC2; 0xA5],
     [0x1F4E5]);
    (* Unlock *)
    ([0xC3; 0x192; 0xC2; 0xB0; 0xC3; 0x2026; 0xC2; 0xB8; 0xC3; 0xA2; 0xE2;
      0x201A; 0xAC; 0xC2; 0xC3; 0xA2; 0xE2; 0x201A; 0xAC; 0xE2; 0x201E; 0xA2],
     [0x1F513]);
    (* Trash *)
    ([0xC3; 0x192; 0xC2; 0xB0; 0xC3; 0x2026; 0xC2; 0xB8; 0xC3; 0xA2; 0xE2;
      0x201A; 0xAC; 0xE2; 0x20AC; 0xC3; 0xA2; 0xE2; 0x201A; 0xAC; 0xCB;
      0x153; 0xC3; 0x192; 0xC2; 0xAF; 0xC3; 0x201A; 0xC2; 0xB8; 0xC3;
      0x201A; 0xC2],
     [0x1F5D1; 0xFE0F]);
    (* Chart *)
    ([0xC3; 0x192; 0xC2; 0xB0; 0xC3; 0x2026; 0xC2; 0xB8; 0xC3; 0xA2; 0xE2;
      0x201A; 0xAC; 0xC5; 0x22; 0xC3; 0x2026; 0xC2; 0x20],
     [0x1F4E0]);
    (* Refresh *)
    ([0xC3; 0x192; 0xC2; 0xB0; 0xC3; 0x2026; 0xC2; 0xB8; 0xC3; 0xA2; 0xE2;
      0x201A; 0xAC; 0xC2; 0xC3; 0xA2; 0xE2; 0x201A; 0xAC; 0xC5; 0xBE],
     [0x1F504]);
    (* Copy *)
    ([0xC3; 0x192; 0xC2; 0xB0; 0xC3; 0x2026; 0xC2; 0xB8; 0xC3; 0xA2; 0xE2;
      0x201A; 0xAC; 0xC5; 0x22; 0xC3; 0xA2; 0xE2; 0x201A; 0xAC; 0xC2; 0xB9],
     [0x1F4CB]);
    (* Share *)
    ([0xC3; 0x192; 0xC2; 0xB0; 0xC3; 0x2026; 0xC2; 0xB8; 0xC3; 0xA2; 0xE2;
      0x201A; 0xAC; 0xC5; 0x22; 0xC3; 0x201A; 0xC2; 0xA4],
     [0x1F4E4]);
    (* QR *)
    ([0xC3; 0x192; 0xC2; 0xB0; 0xC3; 0x2026; 0xC2; 0xB8; 0xC3; 0xA2; 0xE2;
      0x201A; 0xAC; 0xC5; 0x22; 0xC3; 0x201A; 0xC2; 0xB7],
     [0x1F4F7]);
    (* Mining pick *)
    ([0xC3; 0x192; 0xC2; 0xA2; 0xC3; 0xA2; 0xE2; 0x201A; 0xAC; 0xC2; 0xBA;
      0xC3; 0x201A; 0xC2; 0xC3; 0x192; 0xC2; 0xAF; 0xC3; 0x201A; 0xC2; 0xB8;
      0xC3; 0x201A; 0xC2],
     [0x26CF; 0xFE0F]);
    (* Rocket *)
    ([0xC3; 0x192; 0xC2; 0xB0; 0xC3; 0x2026; 0xC2; 0xB8; 0xC3; 0x2026; 0xC2;
      0xA1; 0xC3; 0xA2; 0xE2; 0x20AC; 0x161; 0xC2; 0xAC],
     [0x1F680]);
    (* Stop *)
    ([0xC3; 0x192; 0xC2; 0xA2; 0xC3; 0x201A; 0xC2; 0xC3; 0x201A; 0xC2; 0xB9;
      0xC3; 0x192; 0xC2; 0xAF; 0xC3; 0x201A; 0xC2; 0xB8; 0xC3; 0x201A; 0xC2],
     [0x23F9; 0xFE0F]);
    (* Finger *)
    ([0xC3; 0x192; 0xC2; 0xB0; 0xC3; 0x2026; 0xC2; 0xB8; 0xC3; 0xA2; 0xE2;
      0x201A; 0xAC; 0xCB; 0x153; 0xC3; 0xA2; 0xE2; 0x201A; 0xAC; 0xC2; 0x20],
     [0x1F446]);
    (* Approx *)
    ([0xC3; 0x192; 0xC2; 0xA2; 0xC3; 0xA2; 0xE2; 0x201A; 0xAC; 0xC2; 0xB0;
      0xC3; 0x2039; 0xE2; 0x20AC; 0x20],
     [0x2248]);
    (* Down arrow *)
    ([0xC3; 0x192; 0xC2; 0xA2; 0xC3; 0xA2; 0xE2; 0x201A; 0xAC; 0xC2; 0xA1;
      0xC3; 0xA2; 0xE2; 0x201A; 0xAC; 0xC2; 0xA6],
     [0x21E6]);
    (* Bullet *)
    ([0xC3; 0x192; 0xC2; 0xA2; 0xC3; 0xA2; 0xE2; 0x20AC; 0x161; 0xC2; 0xAC;
      0xC3; 0x201A; 0xC2; 0xA2],
     [0x2022]);
    (* Check *)
    ([0xC3; 0x192; 0xC2; 0xA2; 0xC3; 0x2026; 0xE2; 0x20AC; 0x153; 0xC3;
      0xA2; 0xE2; 0x201A; 0xAC; 0xC2; 0xA6],
     [0x2705]);
    (* Home *)
    ([0xC3; 0x192; 0xC2; 0xB0; 0xC3; 0x2026; 0xC2; 0xB8; 0xC3; 0x201A; 0xC2;
      0xC3; 0xA2; 0xE2; 0x20AC; 0x161; 0xC2; 0x20],
     [0x1F3E0]);
    (* Wrench *)
    ([0xC3; 0x192; 0xC2; 0xB0; 0xC3; 0x2026; 0xC2; 0xB8; 0xC3; 0xA2; 0xE2;
      0x201A; 0xAC; 0xC2; 0xC3; 0x201A; 0xC2; 0xA7],
     [0x1F527]);
    (* Link *)
    ([0xC3; 0x192; 0xC2; 0xB0; 0xC3; 0x2026; 0xC2; 0xB8; 0xC3; 0xA2; 0xE2;
      0x201A; 0xAC; 0xC2; 0xC3; 0x2014],
     [0x1F517]);
    (* Purple circle *)
    ([0xC3; 0x192; 0xC2; 0xB0; 0xC3; 0x2026; 0xC2; 0xB8; 0xC3; 0x2026; 0xC2;
      0xB8; 0xC3; 0x201A; 0xC2; 0xA3],
     [0x1F7E3]);
    (* World/apps *)
    ([0xC3; 0x192; 0xC2; 0xB0; 0xC3; 0x2026; 0xC2; 0xB8; 0xC3; 0x2026; 0xE2;
      0x20AC; 0x2122; 0xC3; 0x201A; 0xC2; 0x20],
     [0x1F310])
  ].

(** [text.encode(enc).decode('utf-8')], for the encoder of [enc]. *)
Definition redecode (encode : str -> result bytes) (text : str) : result str :=
  bs <- encode text ;; decode_utf8 bs.

(** [fix_mojibake], defined by the script and not called by it. *)
Definition fix_mojibake (text : str) : result str :=
  try_except
    (fixed <- redecode encode_latin1 text ;; Ok fixed)
    (Ok text).

(** The callback of the regular-expression pass; its argument is
    [match.group(0)]. *)
Definition fix_remaining_mojibake (mojibake : str) : result str :=
  try_except
    (fixed <- redecode encode_latin1 mojibake ;; Ok fixed)
    (try_except
       (fixed <- redecode encode_cp1252 mojibake ;; Ok fixed)
       (Ok mojibake)).

(** The loop [for bad, good in table.items(): content = content.replace(bad, good)]. *)
Definition substitution_pass (table : list (str * str)) (content : str) : str :=
  fold_left (fun c entry => replace (fst entry) (snd entry) c) table content.

(** The transformation the script applies to the content of the file
    between reading and writing it. *)
Definition repair_with (table : list (str * str)) (content : str) : result str :=
  re_sub fix_remaining_mojibake (substitution_pass table content).

Definition repair (content : str) : result str :=
  repair_with replacements content.

(** [text.count(marker)]. *)
Definition count_marker (s : str) : nat :=
  length (filter (fun c => c =? marker) s).


(** ** The script [fix_all_files.py] *)

(** [str(n)] for an integer: its decimal digits, after a minus sign when
    it is negative. *)
Fixpoint digits (d : Decimal.uint) : str :=
  match d with
  | Decimal.Nil => []
  | Decimal.D0 d => 0x30 :: digits d
  | Decimal.D1 d => 0x31 :: digits d
  | Decimal.D2 d => 0x32 :: digits d
  | Decimal.D3 d => 0x33 :: digits d
  | Decimal.D4 d => 0x34 :: digits d
  | Decimal.D5 d => 0x35 :: digits d
  | Decimal.D6 d => 0x36 :: digits d
  | Decimal.D7 d => 0x37 :: digits d
  | Decimal.D8 d => 0x38 :: digits d
  | Decimal.D9 d => 0x39 :: digits d
  end.

Definition decimal (n : nat) : str := digits (Nat.to_uint n).

Definition decimal_Z (z : Z) : str :=
  match Z.to_int z with
  | Decimal.Pos d => digits d
  | Decimal.Neg d => 0x2D :: digits d
  end.

Section FixAllFiles.

(** The file system, the exception objects and the calls the script makes
    to its environment.  [read_text] is [open(filepath, 'r',
    encoding='utf-8')] followed by [f.read()]; [write_text] is
    [open(filepath, 'w', encoding='utf-8')] followed by [f.write(...)],
    which may have altered the file system when it raises; [fix_text] is
    [ftfy.fix_text].  [is_Exception e] tells whether [e] is an instance of
    [Exception], the class the handler of the loop catches, and [str_of e]
    is [str(e)], the text an f-string puts for [{e}].

    [print] encodes its text for [sys.stdout] before it writes it, and
    raises [UnicodeEncodeError] at a character the encoding of
    [sys.stdout] does not have.  That encoding extends ASCII;
    [stdout_extra] tells which other characters it has.  [of_exn] makes
    the exception object of an exception of the codecs. *)
Variable filesystem : Type.
Variable error : Type.
Variable is_Exception : error -> bool.
Variable read_text : str -> filesystem -> outcome error str.
Variable fix_text : str -> outcome error str.
Variable write_text : str -> str -> filesystem -> filesystem * option error.
Variable str_of : error -> str.
Variable stdout_extra : char -> bool.
Variable of_exn : exn -> error.

(** What [print] writes. *)
Inductive line : Type :=
| Counts (filepath : str) (before_count after_count : nat)
| ErrorWith (filepath : str) (e : error)
| TotalFixed (total : Z).

(** What the script does to its environment, in order. *)
Inductive event : Type :=
| OpenRead (filepath : str)
| OpenWrite (filepath : str)
| Print (l : line).

Record state : Type := mkState {
  fs : filesystem;
  trace : list event;
  total_fixed : Z
}.

Definition emit (ev : event) (st : state) : state :=
  mkState (fs st) (trace st ++ [ev]) (total_fixed st).

(** The text of a line: [f"{filepath}: {before_count} -> {after_count}"],
    [f"Error with {filepath}: {e}"] and
    [f"\nTotal patterns fixed: {total_fixed}"]. *)
Definition text_of (l : line) : str :=
  match l with
  | Counts filepath before_count after_count =>
      filepath ++ [0x3A; 0x20] ++ decimal before_count
        ++ [0x20; 0x2D; 0x3E; 0x20] ++ decimal after_count
  | ErrorWith filepath e =>
      [0x45; 0x72; 0x72; 0x6F; 0x72; 0x20; 0x77; 0x69; 0x74; 0x68; 0x20]
        ++ filepath ++ [0x3A; 0x20] ++ str_of e
  | TotalFixed total =>
      [0x0A; 0x54; 0x6F; 0x74; 0x61; 0x6C; 0x20; 0x70; 0x61; 0x74; 0x74;
       0x65; 0x72; 0x6E; 0x73; 0x20; 0x66; 0x69; 0x78; 0x65; 0x64; 0x3A;
       0x20] ++ decimal_Z total
  end.

Definition stdout_encodes (c : char) : bool :=
  between 0x00 0x7F c || stdout_extra c.

(** [print(...)]: the line is written, or [UnicodeEncodeError] is raised
    and nothing is. *)
Definition print (l : line) (st : state) : state * option error :=
  if forallb stdout_encodes (text_of l)
  then (emit (Print l) st, None)
  else (st, Some (of_exn UnicodeEncodeError)).

(** The body of the [try] statement for one file: the state it leaves and
    the exception it raises, if any. *)
Definition try_body (filepath : str) (st : state) : state * option error :=
  let st := emit (OpenRead filepath) st in
  match read_text filepath (fs st) with
  | Raise e => (st, Some e)
  | Ok content =>
      let before_count := count_marker content in
      match fix_text content with
      | Raise e => (st, Some e)
      | Ok fixed_content =>
          let after_count := count_marker fixed_content in
          if (0 <? before_count)%nat then
            match print (Counts filepath before_count after_count) st with
            | (st, Some e) => (st, Some e)
            | (st, None) =>
                let st := mkState (fs st) (trace st)
                            (total_fixed st
                             + (Z.of_nat before_count - Z.of_nat after_count)) in
                let st := emit (OpenWrite filepath) st in
                let (fs', raised) := write_text filepath fixed_content (fs st) in
                (mkState fs' (trace st) (total_fixed st), raised)
            end
          else (st, None)
      end
  end.

(** The loop [for filepath in files_to_fix] with its [try] and
    [except Exception as e]: an exception that is not an [Exception] is
    not caught and ends the loop, and so does an exception that the
    [print] of the handler raises, which is outside the [try]. *)
Fixpoint for_loop (files_to_fix : list str) (st : state) : state * option error :=
  match files_to_fix with
  | [] => (st, None)
  | filepath :: rest =>
      match try_body filepath st with
      | (st', None) => for_loop rest st'
      | (st', Some e) =>
          if is_Exception e
          then match print (ErrorWith filepath e) st' with
               | (st'', None) => for_loop rest st''
               | (st'', Some e') => (st'', Some e')
               end
          else (st', Some e)
      end
  end.

(** The script, from the list that [glob] returned. *)
Definition fix_all_files (files_to_fix : list str) (disk : filesystem)
  : state * option error :=
  match for_loop files_to_fix (mkState disk [] 0) with
  | (st, None) => print (TotalFixed (total_fixed st)) st
  | (st, Some e) => (st, Some e)
  end.

End FixAllFiles.

Arguments OpenRead {error} filepath.
Arguments OpenWrite {error} filepath.
Arguments Print {error} l.
Arguments Counts {error} filepath before_count after_count.
Arguments ErrorWith {error} filepath e.
Arguments TotalFixed {error} total.
Arguments fs {filesystem error} s.
Arguments trace {filesystem error} s.
Arguments total_fixed {filesystem error} s.
Arguments mkState {filesystem error} fs trace total_fixed.
Arguments emit {filesystem error} ev st.
Arguments text_of {error} str_of l.
Arguments print {filesystem error} str_of stdout_extra of_exn l st.
Arguments try_body {filesystem error} read_text fix_text write_text str_of
  stdout_extra of_exn filepath st.
Arguments for_loop {filesystem error} is_Exception read_text fix_text write_text
  str_of stdout_extra of_exn files_to_fix st.
Arguments fix_all_files {filesystem error} is_Exception read_text fix_text
  write_text str_of stdout_extra of_exn files_to_fix disk.

(** ** Notions used to state the properties *)

(** A small file system for examples: the text of each file, or [None]
    for a file whose bytes are not UTF-8. *)
Definition toy_disk : Type := list (str * option str).

Fixpoint toy_lookup (filepath : str) (disk : toy_disk) : option (option str) :=
  match disk with
  | [] => None
  | (name, text) :: rest =>
      if list_eq_dec Z.eq_dec name filepath then Some text
      else toy_lookup filepath rest
  end.

Definition toy_read (filepath : str) (disk : toy_disk) : outcome exn str :=
  match toy_lookup filepath disk with
  | None => Raise OSError
  | Some None => Raise UnicodeDecodeError
  | Some (Some text) => Ok text
  end.

Definition toy_write (filepath text : str) (disk : toy_disk)
  : toy_disk * option exn :=
  ((filepath, Some text) :: disk, None).

(** A batch of two files, [a.js], which is not UTF-8, and [b.html], which
    holds a marker; the transformation of the other script stands for
    [ftfy.fix_text]. *)
Definition a_js : str := [0x61; 0x2E; 0x6A; 0x73].

Definition b_html : str := [0x62; 0x2E; 0x68; 0x74; 0x6D; 0x6C].

Definition toy_start : state toy_disk exn :=
  mkState [(a_js, None); (b_html, Some [0xC3; 0xA9])] [] 0.

(** In the examples [str(e)] is the word [error], and [sys.stdout] has
    every character. *)
Definition toy_str_of (e : exn) : str := [0x65; 0x72; 0x72; 0x6F; 0x72].

Definition toy_loop (files_to_fix : list str) (st : state toy_disk exn)
  : state toy_disk exn * option exn :=
  for_loop (fun _ => true) toy_read repair toy_write toy_str_of
    (fun _ => true) (fun e => e) files_to_fix st.

(** The same batch with [a.js] renamed to [é.js], under a [sys.stdout]
    whose encoding is ASCII. *)
Definition e_acute_js : str := [0xE9; 0x2E; 0x6A; 0x73].

Definition ascii_start : state toy_disk exn :=
  mkState [(e_acute_js, None); (b_html, Some [0xC3; 0xA9])] [] 0.

Definition ascii_loop (files_to_fix : list str) (st : state toy_disk exn)
  : state toy_disk exn * option exn :=
  for_loop (fun _ => true) toy_read repair toy_write toy_str_of
    (fun _ => false) (fun e => e) files_to_fix st.

Definition ascii_script : state toy_disk exn * option exn :=
  fix_all_files (fun _ => true) toy_read repair toy_write toy_str_of
    (fun _ => false) (fun e => e) [e_acute_js; b_html] (fs ascii_start).

(** [old] occurs in [s] as a substring ([old in s]). *)
Definition occurs (old s : str) : Prop :=
  exists a b, s = a ++ old ++ b.

(** The executable counterpart of [occurs]. *)
Fixpoint contains (old s : str) : bool :=
  starts_with old s ||
  match s with
  | [] => false
  | _ :: t => contains old t
  end.

(** [Replaced old new s s']: [s'] is [s] with the occurrences of [old]
    replaced by [new], found from the left: the first occurrence is the
    leftmost one, and the next is looked for after its end. *)
Inductive Replaced (old new : str) : str -> str -> Prop :=
| Replaced_none s :
    ~ occurs old s -> Replaced old new s s
| Replaced_first pre rest rest' :
    (forall a b, pre ++ old ++ rest = a ++ old ++ b ->
                 (length pre <= length a)%nat) ->
    Replaced old new rest rest' ->
    Replaced old new (pre ++ old ++ rest) (pre ++ new ++ rest').

(** [Applied table s s']: [s'] is what is left of [s] when the entries of
    [table] have been applied one after the other, from the first to the
    last, each replacing the occurrences of its key in the whole text
    left by the entry before it. *)
Inductive Applied : list (str * str) -> str -> str -> Prop :=
| Applied_nil s : Applied [] s s
| Applied_cons bad good table s s1 s' :
    Replaced bad good s s1 ->
    Applied table s1 s' ->
    Applied ((bad, good) :: table) s s'.

(** [new] is not empty and shares no character with [old]. *)
Definition fresh_for (new old : str) : bool :=
  match new with
  | [] => false
  | _ :: _ => forallb (fun c => negb (existsb (Z.eqb c) old)) new
  end.

(** A match of [pattern] starts somewhere in [s]. *)
Fixpoint has_match (s : str) : bool :=
  match s with
  | [] => false
  | _ :: t =>
      match pattern_match s with
      | Some _ => true
      | None => has_match t
      end
  end.

(** The keys of the entries commented [Globe] and [World/apps], and the
    value both map to. *)
Definition globe_key : str :=
  [0xC3; 0x192; 0xC2; 0xB0; 0xC3; 0x2026; 0xC2; 0xB8; 0xC3; 0x2026; 0xE2;
   0x20AC; 0x2122; 0xC3; 0x201A; 0xC2].

Definition world_apps_key : str := globe_key ++ [0x20].

Definition globe_value : str := [0x1F310].

(** The key and the value of the entry [Green circle]. *)
Definition green_circle_key : str :=
  [0xC3; 0x192; 0xC2; 0xB0; 0xC3; 0x2026; 0xC2; 0xB8; 0xC3; 0x2026; 0xC2;
   0xB8; 0xC3; 0x201A; 0xC2; 0xA2].

Definition green_circle_value : str := [0x1F7E2].

(** The text [price: 5], the key of [Green circle], [ok], and its repaired
    form. *)
Definition scenario_1 : str :=
  [0x70; 0x72; 0x69; 0x63; 0x65; 0x3A; 0x20; 0x35]
  ++ green_circle_key ++ [0x6F; 0x6B].

Definition scenario_1_repaired : str :=
  [0x70; 0x72; 0x69; 0x63; 0x65; 0x3A; 0x20; 0x35; 0x1F7E2; 0x6F; 0x6B].

(** [repair(repair(text))], with an exception of either call propagating. *)
Definition repair_twice (text : str) : result str :=
  r <- repair text ;; repair r.

(** ** How mojibake arises: the other direction of the codecs *)

(** A Unicode scalar value: a code point that is not a surrogate.  These
    are the characters of a text read from a UTF-8 file. *)
Definition is_scalar (c : char) : bool :=
  between 0x0000 0xD7FF c || between 0xE000 0x10FFFF c.

Definition is_ascii (c : char) : bool := between 0x00 0x7F c.

(** The bytes of one code point in UTF-8; a surrogate has none in strict
    mode. *)
Definition encode_char_utf8 (c : char) : option bytes :=
  if between 0x00 0x7F c then Some [c]
  else if between 0x80 0x7FF c then
    Some [Z.lor 0xC0 (Z.shiftr c 6); Z.lor 0x80 (Z.land c 0x3F)]
  else if between 0xD800 0xDFFF c then None
  else if between 0x800 0xFFFF c then
    Some [Z.lor 0xE0 (Z.shiftr c 12);
          Z.lor 0x80 (Z.land (Z.shiftr c 6) 0x3F);
          Z.lor 0x80 (Z.land c 0x3F)]
  else if between 0x10000 0x10FFFF c then
    Some [Z.lor 0xF0 (Z.shiftr c 18);
          Z.lor 0x80 (Z.land (Z.shiftr c 12) 0x3F);
          Z.lor 0x80 (Z.land (Z.shiftr c 6) 0x3F);
          Z.lor 0x80 (Z.land c 0x3F)]
  else None.

(** [text.encode('utf-8')], the encoding with which the scripts write
    their files. *)
Fixpoint encode_utf8 (text : str) : result bytes :=
  match text with
  | [] => Ok []
  | c :: t =>
      match encode_char_utf8 c with
      | Some bs => rest <- encode_utf8 t ;; Ok (bs ++ rest)
      | None => Raise UnicodeEncodeError
      end
  end.

(** [bs.decode('latin-1')]: every byte is the code point of its value. *)
Definition decode_latin1 (bs : bytes) : str := bs.

(** The code point of one byte in Python's [cp1252] codec, the inverse of
    [cp1252_byte]; five bytes are unassigned. *)
Definition cp1252_char (b : Z) : option char :=
  if between 0x00 0x7F b then Some b
  else if between 0xA0 0xFF b then Some b
  else if b =? 0x80 then Some 0x20AC
  else if b =? 0x82 then Some 0x201A
  else if b =? 0x83 then Some 0x0192
  else if b =? 0x84 then Some 0x201E
  else if b =? 0x85 then Some 0x2026
  else if b =? 0x86 then Some 0x2020
  else if b =? 0x87 then Some 0x2021
  else if b =? 0x88 then Some 0x02C6
  else if b =? 0x89 then Some 0x2030
  else if b =? 0x8A then Some 0x0160
  else if b =? 0x8B then Some 0x2039
  else if b =? 0x8C then Some 0x0152
  else if b =? 0x8E then Some 0x017D
  else if b =? 0x91 then Some 0x2018
  else if b =? 0x92 then Some 0x2019
  else if b =? 0x93 then Some 0x201C
  else if b =? 0x94 then Some 0x201D
  else if b =? 0x95 then Some 0x2022
  else if b =? 0x96 then Some 0x2013
  else if b =? 0x97 then Some 0x2014
  else if b =? 0x98 then Some 0x02DC
  else if b =? 0x99 then Some 0x2122
  else if b =? 0x9A then Some 0x0161
  else if b =? 0x9B then Some 0x203A
  else if b =? 0x9C then Some 0x0153
  else if b =? 0x9E then Some 0x017E
  else if b =? 0x9F then Some 0x0178
  else None.

(** [bs.decode('cp1252')]. *)
Fixpoint decode_cp1252 (bs : bytes) : result str :=
  match bs with
  | [] => Ok []
  | b :: t =>
      match cp1252_char b with
      | Some c => s <- decode_cp1252 t ;; Ok (c :: s)
      | None => Raise UnicodeDecodeError
      end
  end.

(** ** Further notions *)

(** An ASCII character other than the space and the quotation mark, the
    two ASCII characters that occur in keys of the table. *)
Definition is_markup (c : char) : bool :=
  is_ascii c && negb (c =? 0x20) && negb (c =? 0x22).

(** The number of characters that [encode_utf8] refuses. *)
Definition count_unencodable (s : str) : nat :=
  length (filter (fun c => negb (is_scalar c)) s).

(** The sum of the differences reported by the lines [Counts] of a trace. *)
Fixpoint reported {error : Type} (l : list (event error)) : Z :=
  match l with
  | [] => 0
  | Print (Counts _ before_count after_count) :: t =>
      (Z.of_nat before_count - Z.of_nat after_count) + reported t
  | _ :: t => reported t
  end.

(** The files a trace opens for reading, and for writing, in order. *)
Fixpoint reads {error : Type} (l : list (event error)) : list str :=
  match l with
  | [] => []
  | OpenRead filepath :: t => filepath :: reads t
  | _ :: t => reads t
  end.

Fixpoint writes {error : Type} (l : list (event error)) : list str :=
  match l with
  | [] => []
  | OpenWrite filepath :: t => filepath :: writes t
  | _ :: t => writes t
  end.

(** ** The scripts that rewrite [index.html] *)

Definition index_html : str :=
  [0x69; 0x6E; 0x64; 0x65; 0x78; 0x2E; 0x68; 0x74; 0x6D; 0x6C].

(** What the two scripts print. *)
Inductive message : Type :=
| FixedIndex
| FixedWithFtfy
| Remaining (count : nat).

(** The text of a message: ["Fixed index.html encoding issues"],
    ["Fixed with ftfy!"] and [f"Remaining Ã count: {count}"], which holds
    the marker. *)
Definition text_of_message (m : message) : str :=
  match m with
  | FixedIndex =>
      [0x46; 0x69; 0x78; 0x65; 0x64; 0x20; 0x69; 0x6E; 0x64; 0x65; 0x78;
       0x2E; 0x68; 0x74; 0x6D; 0x6C; 0x20; 0x65; 0x6E; 0x63; 0x6F; 0x64;
       0x69; 0x6E; 0x67; 0x20; 0x69; 0x73; 0x73; 0x75; 0x65; 0x73]
  | FixedWithFtfy =>
      [0x46; 0x69; 0x78; 0x65; 0x64; 0x20; 0x77; 0x69; 0x74; 0x68; 0x20;
       0x66; 0x74; 0x66; 0x79; 0x21]
  | Remaining count =>
      [0x52; 0x65; 0x6D; 0x61; 0x69; 0x6E; 0x69; 0x6E; 0x67; 0x20; marker;
       0x20; 0x63; 0x6F; 0x75; 0x6E; 0x74; 0x3A; 0x20] ++ decimal count
  end.

Section Scripts.

Variable filesystem : Type.
Variable error : Type.
Variable is_Exception : error -> bool.
Variable read_text : str -> filesystem -> outcome error str.
Variable fix_text : str -> outcome error str.
Variable write_text : str -> str -> filesystem -> filesystem * option error.

(** The characters outside ASCII that the encoding of [sys.stdout] has. *)
Variable stdout_extra : char -> bool.

(** An exception of the codecs as an exception object of the environment. *)
Variable of_exn : exn -> error.

(** [print(...)] after the messages [out]: the message is written, or
    [UnicodeEncodeError] is raised and nothing is. *)
Definition print_message (m : message) (out : list message)
  : list message * option error :=
  if forallb (stdout_encodes stdout_extra) (text_of_message m)
  then (out ++ [m], None)
  else (out, Some (of_exn UnicodeEncodeError)).

(** [fix_with_ftfy.py]: nothing is caught, so the first exception ends the
    script; the file system it leaves, what it printed and the exception. *)
Definition fix_with_ftfy (disk : filesystem)
  : filesystem * list message * option error :=
  match read_text index_html disk with
  | Raise e => (disk, [], Some e)
  | Ok content =>
      match fix_text content with
      | Raise e => (disk, [], Some e)
      | Ok fixed_content =>
          match write_text index_html fixed_content disk with
          | (disk', Some e) => (disk', [], Some e)
          | (disk', None) =>
              match print_message FixedWithFtfy [] with
              | (out, Some e) => (disk', out, Some e)
              | (out, None) =>
                  let count := count_marker fixed_content in
                  let (out, raised) := print_message (Remaining count) out in
                  (disk', out, raised)
              end
          end
      end
  end.

(** [fix_encoding.py] as a whole. *)
Definition fix_encoding (disk : filesystem)
  : filesystem * list message * option error :=
  match read_text index_html disk with
  | Raise e => (disk, [], Some e)
  | Ok content =>
      match repair content with
      | Raise e => (disk, [], Some (of_exn e))
      | Ok content' =>
          match write_text index_html content' disk with
          | (disk', Some e) => (disk', [], Some e)
          | (disk', None) =>
              let (out, raised) := print_message FixedIndex [] in
              (disk', out, raised)
          end
      end
  end.

End Scripts.

Arguments print_message {error} stdout_extra of_exn m out.
Arguments fix_with_ftfy {filesystem error} read_text fix_text write_text
  stdout_extra of_exn disk.
Arguments fix_encoding {filesystem error} read_text write_text stdout_extra
  of_exn disk.

(** Further examples: a disk that holds [index.html] with a marker, a
    clean disk, and an environment in which reading [b.html] is
    interrupted by an exception that is not an [Exception] (it is written
    [None]; an exception [e] of the codecs is [Some e]). *)
Definition index_text : str := [0xC3; 0x83; 0xC2; 0xA9].

Definition index_disk : toy_disk := [(index_html, Some index_text)].

Definition clean_disk : toy_disk := [(b_html, Some [0x6F; 0x6B])].

Definition caught_by_handler (e : option exn) : bool :=
  match e with
  | Some _ => true
  | None => false
  end.

Definition interrupted_read (filepath : str) (disk : toy_disk)
  : outcome (option exn) str :=
  if list_eq_dec Z.eq_dec filepath b_html then Raise None
  else match toy_read filepath disk with
       | Ok text => Ok text
       | Raise e => Raise (Some e)
       end.

Definition clean_start : state toy_disk exn := mkState clean_disk [] 0.

(** The batch script on the two files of [toy_start]. *)
Definition toy_script : state toy_disk exn * option exn :=
  fix_all_files (fun _ => true) toy_read repair toy_write toy_str_of
    (fun _ => true) (fun e => e) [a_js; b_html] (fs toy_start).

Definition plain_fix (text : str) : outcome (option exn) str := Ok text.

Definition plain_str_of (e : option exn) : str :=
  match e with
  | Some e => toy_str_of e
  | None => []
  end.

Definition plain_write (filepath text : str) (disk : toy_disk)
  : toy_disk * option (option exn) :=
  ((filepath, Some text) :: disk, None).

(** * Properties *)

(** A property checked by running its test over a list. *)
Lemma forallb_Forall {A : Type} (f : A -> bool) (l : list A) :
  forallb f l = true -> Forall (fun x => f x = true) l.
Proof.
  intros H; apply Forall_forall; apply forallb_forall; exact H.
Qed.

(** ** Prefixes and occurrences *)

Lemma starts_with_split (p s : str) :
  starts_with p s = true -> s = p ++ skipn (length p) s.
Proof.
  revert s; induction p as [|a p IH]; intros [|b s] H; simpl in *;
    try reflexivity; try discriminate.
  apply andb_prop in H as [Hab Hps].
  apply Z.eqb_eq in Hab; subst b.
  f_equal; apply IH; exact Hps.
Qed.

Lemma starts_with_app (p r : str) : starts_with p (p ++ r) = true.
Proof.
  induction p as [|a p IH]; simpl; [reflexivity|].
  rewrite Z.eqb_refl; exact IH.
Qed.

Lemma starts_with_occurs (p s : str) : starts_with p s = true -> occurs p s.
Proof.
  intros H; exists [], (skipn (length p) s); simpl.
  apply starts_with_split; exact H.
Qed.

Lemma occurs_cons (old s : str) (c : char) : occurs old s -> occurs old (c :: s).
Proof.
  intros (a & b & ->); exists (c :: a), b; reflexivity.
Qed.

Lemma occurs_cons_inv (old s : str) (c : char) :
  occurs old (c :: s) -> starts_with old (c :: s) = true \/ occurs old s.
Proof.
  intros ([|x a] & b & E).
  - left; simpl in E; rewrite E; apply starts_with_app.
  - right; simpl in E; injection E as _ ->; exists a, b; reflexivity.
Qed.

Lemma contains_occurs (old s : str) : contains old s = true <-> occurs old s.
Proof.
  induction s as [|c s IH].
  - simpl; rewrite orb_false_r; split.
    + apply starts_with_occurs.
    + intros (a & b & E); destruct a, old; simpl in *; congruence.
  - simpl; rewrite orb_true_iff; split.
    + intros [H|H].
      * apply starts_with_occurs; exact H.
      * apply occurs_cons, IH; exact H.
    + intros H; apply occurs_cons_inv in H as [H|H]; [left|right; apply IH]; exact H.
Qed.

(** ** [str.replace] *)

Lemma replace_from_skip (old new : str) (k : nat) (s : str) :
  replace_from old new k s = replace_from old new 0 (skipn k s).
Proof.
  revert k; induction s as [|c s IH]; intros [|k]; simpl; try reflexivity.
  apply IH.
Qed.

(** The unfolding of [replace] at a position where [old] starts, and at a
    position where it does not. *)
Lemma replace_here (old new rest : str) :
  old <> [] ->
  replace old new (old ++ rest) = new ++ replace old new rest.
Proof.
  destruct old as [|a old]; [congruence|]; intros _.
  unfold replace; cbn [replace_from app].
  rewrite (app_comm_cons old rest a), starts_with_app.
  f_equal; rewrite replace_from_skip; f_equal.
  cbn [length Nat.pred].
  rewrite skipn_app, skipn_all, Nat.sub_diag; reflexivity.
Qed.

Lemma replace_next (old new : str) (c : char) (s : str) :
  old <> [] -> starts_with old (c :: s) = false ->
  replace old new (c :: s) = c :: replace old new s.
Proof.
  destruct old as [|a old]; [congruence|]; intros _ H.
  unfold replace; cbn [replace_from]; rewrite H; reflexivity.
Qed.

Lemma replace_nil (old new : str) : old <> [] -> replace old new [] = [].
Proof.
  destruct old; [congruence|reflexivity].
Qed.

(** A string in which [old] does not occur is left as it is. *)
Lemma replace_absent (old new s : str) :
  ~ occurs old s -> replace old new s = s.
Proof.
  intros H.
  assert (Hne : old <> []) by (intros ->; apply H; exists [], s; reflexivity).
  induction s as [|c s IH]; [apply replace_nil; exact Hne|].
  rewrite replace_next; trivial.
  - f_equal; apply IH; intros Ho; apply H, occurs_cons, Ho.
  - destruct (starts_with old (c :: s)) eqn:E; [|reflexivity].
    exfalso; apply H, starts_with_occurs, E.
Qed.

(** [replace] meets its specification [Replaced]. *)
Lemma replace_Replaced (old new : str) :
  old <> [] -> forall s, Replaced old new s (replace old new s).
Proof.
  intros Hne s.
  remember (length s) as n eqn:Hn.
  assert (Hlen : (length s <= n)%nat) by lia; clear Hn.
  revert s Hlen; induction n as [|n IH]; intros s Hlen.
  - destruct s; [|simpl in Hlen; lia].
    rewrite replace_nil by exact Hne.
    apply Replaced_none; intros (a & b & E).
    destruct a, old; simpl in E; congruence.
  - destruct s as [|c s].
    { rewrite replace_nil by exact Hne.
      apply Replaced_none; intros (a & b & E).
      destruct a, old; simpl in E; congruence. }
    simpl in Hlen.
    destruct (starts_with old (c :: s)) eqn:Hsw.
    + pose proof (starts_with_split _ _ Hsw) as E.
      rewrite E, replace_here by exact Hne.
      apply (Replaced_first old new [] _ _).
      * intros a b _; simpl; lia.
      * apply IH.
        assert (length (skipn (length old) (c :: s)) < length (c :: s))%nat.
        { rewrite length_skipn; destruct old; [congruence|simpl; lia]. }
        simpl in *; lia.
    + rewrite replace_next by assumption.
      assert (Hs : Replaced old new s (replace old new s)) by (apply IH; lia).
      destruct Hs as [s Hno | pre rest rest' Hfirst Hrest].
      * apply Replaced_none.
        intros Ho; apply occurs_cons_inv in Ho as [Ho|Ho]; [congruence|tauto].
      * apply (Replaced_first old new (c :: pre) rest rest'); [|exact Hrest].
        intros [|x a] b E.
        -- exfalso. simpl in E.
           rewrite E, starts_with_app in Hsw; discriminate.
        -- simpl in E; injection E as _ E.
           apply Hfirst in E; simpl; lia.
Qed.

Lemma fresh_for_spec (new old : str) :
  fresh_for new old = true ->
  new <> [] /\ forall c, In c new -> ~ In c old.
Proof.
  unfold fresh_for; destruct new as [|x new]; [discriminate|].
  intros H; split; [discriminate|].
  intros c Hc Hin.
  rewrite forallb_forall in H; specialize (H c Hc).
  apply negb_true_iff in H.
  assert (E : existsb (Z.eqb c) old = true)
    by (apply existsb_exists; exists c; split; [exact Hin|apply Z.eqb_refl]).
  congruence.
Qed.

(** When the value shares no character with the key, the text left by
    the replacement holds no occurrence of the key any more. *)
Lemma Replaced_exhaustive (old new s s' : str) :
  old <> [] -> new <> [] -> (forall c, In c new -> ~ In c old) ->
  Replaced old new s s' -> ~ occurs old s'.
Proof.
  intros Ho Hn Hd R.
  assert (Hshared : forall x l l' t u,
            old = l ++ x :: l' \/ old = x :: l' ->
            new = t ++ x :: u \/ new = x :: u -> False).
  { intros x l l' t u Hx Hy; apply (Hd x).
    - destruct Hy as [->| ->]; [apply in_elt|left; reflexivity].
    - destruct Hx as [->| ->]; [apply in_elt|left; reflexivity]. }
  induction R as [s Hno|pre rest rest' Hfirst Hrest IH]; [exact Hno|].
  intros (a & b & E).
  apply app_eq_app in E as [l [[Epre E]|[Ea E]]].
  - (* the occurrence starts inside [pre] *)
    apply app_eq_app in E as [l' [[Eold E]|[El Eb]]].
    + destruct l' as [|x l''].
      * rewrite app_nil_r in Eold; subst l pre.
        specialize (Hfirst a (old ++ rest)).
        rewrite <- app_assoc in Hfirst; specialize (Hfirst eq_refl).
        rewrite length_app in Hfirst.
        destruct old; [congruence|simpl in Hfirst; lia].
      * destruct new as [|y new']; [congruence|].
        simpl in E; injection E as -> _.
        apply (Hshared x l l'' [] new'); [left; exact Eold|right; reflexivity].
    + subst l pre.
      specialize (Hfirst a (l' ++ old ++ rest)).
      rewrite <- !app_assoc in Hfirst; specialize (Hfirst eq_refl).
      rewrite !length_app in Hfirst.
      destruct old; [congruence|simpl in Hfirst; lia].
  - (* the occurrence starts after [pre] *)
    symmetry in E.
    apply app_eq_app in E as [l' [[El Eb]|[Enew E]]].
    + apply IH; exists l', b; exact Eb.
    + destruct l' as [|x l''].
      * apply IH; exists [], b; simpl in E; symmetry; exact E.
      * destruct old as [|y old']; [congruence|].
        simpl in E; injection E as -> _.
        apply (Hshared x [] old' l l''); [right; reflexivity|left; exact Enew].
Qed.

(** A replacement whose value shares no character with [k] brings no
    occurrence of [k] into a text that had none. *)
Lemma Replaced_keeps_absent (k old new s s' : str) :
  new <> [] -> (forall c, In c new -> ~ In c k) ->
  Replaced old new s s' -> ~ occurs k s -> ~ occurs k s'.
Proof.
  intros Hn Hd R.
  induction R as [s Hno|pre rest rest' Hfirst Hrest IH]; [tauto|].
  intros Habs (a & b & E).
  assert (Hk : k <> [])
    by (intros ->; apply Habs; exists [], (pre ++ old ++ rest); reflexivity).
  assert (Hrest' : ~ occurs k rest').
  { apply IH; intros (a' & b' & ->); apply Habs.
    exists (pre ++ old ++ a'), b'; rewrite <- !app_assoc; reflexivity. }
  assert (Hshared : forall x l l' u, k = l ++ x :: l' -> new = x :: u -> False).
  { intros x l l' u -> ->; apply (Hd x); [left; reflexivity|apply in_elt]. }
  apply app_eq_app in E as [l [[Epre E]|[Ea E]]].
  - apply app_eq_app in E as [l' [[Ek E]|[El Eb]]].
    + destruct l' as [|x l''].
      * rewrite app_nil_r in Ek; subst l pre.
        apply Habs; exists a, (old ++ rest); rewrite <- app_assoc; reflexivity.
      * destruct new as [|y new']; [congruence|].
        simpl in E; injection E as -> _.
        apply (Hshared x l l'' new' Ek eq_refl).
    + subst l pre; apply Habs.
      exists a, (l' ++ old ++ rest); rewrite <- !app_assoc; reflexivity.
  - symmetry in E.
    apply app_eq_app in E as [l' [[El Eb]|[Enew E]]].
    + apply Hrest'; exists l', b; exact Eb.
    + destruct l' as [|x l''].
      * apply Hrest'; exists [], b; simpl in E; symmetry; exact E.
      * destruct k as [|y k']; [congruence|].
        simpl in E; injection E as -> _.
        apply (Hd x); [rewrite Enew; apply in_elt|left; reflexivity].
Qed.

(** ** Sizes that add up over concatenation *)

Section Measure.

Variable mu : str -> nat.
Hypothesis mu_app : forall a b, mu (a ++ b) = (mu a + mu b)%nat.

Lemma mu_nil : mu [] = 0%nat.
Proof.
  pose proof (mu_app [] []) as H; simpl in H; lia.
Qed.

Lemma mu_cons (c : char) (s : str) : mu (c :: s) = (mu [c] + mu s)%nat.
Proof.
  apply (mu_app [c] s).
Qed.

Lemma replace_from_measure (old new : str) :
  old <> [] -> (mu new <= mu old)%nat ->
  forall n s, (length s <= n)%nat -> (mu (replace old new s) <= mu s)%nat.
Proof.
  intros Hne Hmu; induction n as [|n IH]; intros s Hlen.
  - destruct s; [|simpl in Hlen; lia].
    rewrite replace_nil by exact Hne; lia.
  - destruct s as [|c s]; [rewrite replace_nil by exact Hne; lia|].
    simpl in Hlen.
    destruct (starts_with old (c :: s)) eqn:Hsw.
    + pose proof (starts_with_split _ _ Hsw) as E.
      assert (Hshort : (length (skipn (length old) (c :: s)) <= n)%nat).
      { rewrite length_skipn; destruct old; [congruence|simpl; lia]. }
      rewrite E, replace_here, !mu_app by exact Hne.
      specialize (IH _ Hshort); lia.
    + rewrite replace_next by assumption.
      rewrite (mu_cons c (replace old new s)), (mu_cons c s).
      specialize (IH s ltac:(lia)); lia.
Qed.

Lemma replace_measure (old new s : str) :
  (mu new <= mu old)%nat -> (mu (replace old new s) <= mu s)%nat.
Proof.
  intros Hmu; destruct old as [|a old].
  - rewrite mu_nil in Hmu.
    unfold replace; rewrite mu_app.
    induction s as [|c s IH]; simpl; [rewrite mu_nil; lia|].
    rewrite (mu_cons c (new ++ _)), (mu_cons c s), mu_app.
    lia.
  - apply (replace_from_measure (a :: old) new) with (n := length s);
      [discriminate|exact Hmu|lia].
Qed.

Lemma substitution_pass_measure (table : list (str * str)) :
  Forall (fun entry => (mu (snd entry) <= mu (fst entry))%nat) table ->
  forall content, (mu (substitution_pass table content) <= mu content)%nat.
Proof.
  unfold substitution_pass.
  induction 1 as [|entry table Hentry _ IH]; intros content; simpl; [lia|].
  etransitivity; [apply IH|apply replace_measure; exact Hentry].
Qed.

End Measure.

Lemma count_marker_app (a b : str) :
  count_marker (a ++ b) = (count_marker a + count_marker b)%nat.
Proof.
  unfold count_marker; rewrite filter_app, length_app; reflexivity.
Qed.

(** ** The table *)

(** No key is listed twice, so the items of the dictionary are the
    entries as they are written. *)
Lemma replacements_keys_NoDup : NoDup (map fst replacements).
Proof.
  apply (NoDup_count_occ' (list_eq_dec Z.eq_dec)).
  apply Forall_forall.
  apply (Forall_impl _ (P := fun k =>
           Nat.eqb (count_occ (list_eq_dec Z.eq_dec) (map fst replacements) k) 1 = true)).
  - intros k Hk; apply Nat.eqb_eq; exact Hk.
  - apply forallb_Forall; vm_compute; reflexivity.
Qed.

Lemma replacements_keys_nonempty :
  Forall (fun entry => fst entry <> []) replacements.
Proof.
  apply (Forall_impl _ (P := fun entry : str * str =>
           negb (Nat.eqb (length (fst entry)) 0) = true)).
  - intros [k v] H E; simpl in *; subst k; discriminate.
  - apply forallb_Forall; vm_compute; reflexivity.
Qed.

Lemma replacements_values_shorter :
  Forall (fun entry => (length (snd entry) <= length (fst entry))%nat) replacements.
Proof.
  apply (Forall_impl _ (P := fun entry : str * str =>
           Nat.leb (length (snd entry)) (length (fst entry)) = true)).
  - intros entry H; apply Nat.leb_le; exact H.
  - apply forallb_Forall; vm_compute; reflexivity.
Qed.

Lemma replacements_values_markerless :
  Forall (fun entry => (count_marker (snd entry) <= count_marker (fst entry))%nat)
         replacements.
Proof.
  apply (Forall_impl _ (P := fun entry : str * str =>
           Nat.leb (count_marker (snd entry)) (count_marker (fst entry)) = true)).
  - intros entry H; apply Nat.leb_le; exact H.
  - apply forallb_Forall; vm_compute; reflexivity.
Qed.

(** No value of the table is empty or shares a character with its key. *)
Lemma replacements_values_fresh :
  Forall (fun entry => fresh_for (snd entry) (fst entry) = true) replacements.
Proof.
  apply forallb_Forall; vm_compute; reflexivity.
Qed.

(** ** The codecs and the marker *)

Lemma count_marker_cons (c : char) (s : str) :
  count_marker (c :: s)
  = ((if (c =? marker)%Z then 1 else 0) + count_marker s)%nat.
Proof.
  unfold count_marker; simpl; destruct (c =? marker); reflexivity.
Qed.

Lemma lor_shiftl_add (a b n : Z) :
  0 <= n -> 0 <= b < 2 ^ n -> Z.lor (Z.shiftl a n) b = a * 2 ^ n + b.
Proof.
  intros Hn Hb.
  rewrite Z.shiftl_mul_pow2 by exact Hn.
  assert (H0 : Z.land (a * 2 ^ n) b = 0).
  { apply Z.bits_inj'; intros i Hi.
    rewrite Z.land_spec, Z.bits_0.
    destruct (Z.lt_ge_cases i n) as [Hlt|Hge].
    - rewrite Z.mul_pow2_bits_low by lia; reflexivity.
    - replace b with (b mod 2 ^ n) by (apply Z.mod_small; lia).
      rewrite Z.mod_pow2_bits_high by lia; apply andb_false_r. }
  rewrite <- Z.lxor_lor by exact H0.
  symmetry; apply Z.add_nocarry_lxor; exact H0.
Qed.

Lemma land_low (a n : Z) : 0 <= n -> Z.land a (2 ^ n - 1) = a mod 2 ^ n.
Proof.
  intros Hn; rewrite <- Z.land_ones by exact Hn.
  f_equal; rewrite Z.ones_equiv; lia.
Qed.

Lemma between_spec (lo hi b : Z) : between lo hi b = true <-> lo <= b <= hi.
Proof.
  unfold between; rewrite andb_true_iff, !Z.leb_le; tauto.
Qed.

Lemma cont_bits_mod (c : Z) : cont_bits c = c mod 64.
Proof.
  unfold cont_bits; change 0x3F with (2 ^ 6 - 1).
  rewrite land_low by lia; reflexivity.
Qed.

(** A two-byte sequence decodes to the marker only when its lead byte is
    0xC3. *)
Lemma two_byte_marker (b c1 : Z) :
  between 0xC2 0xDF b = true -> is_cont c1 = true ->
  code_point2 b c1 = marker -> b = marker.
Proof.
  unfold code_point2, is_cont, marker; rewrite !between_spec, cont_bits_mod.
  intros Hb Hc H.
  change 0x1F with (2 ^ 5 - 1) in H; rewrite land_low in H by lia.
  rewrite lor_shiftl_add in H by (try lia; apply Z.mod_pos_bound; lia).
  change (2 ^ 5) with 32 in H; change (2 ^ 6) with 64 in H.
  Z.to_euclidean_division_equations; lia.
Qed.

(** Three-byte and four-byte sequences decode to code points from U+0800
    and from U+10000 on. *)
Lemma three_byte_large (b c1 c2 : Z) :
  between 0xE0 0xEF b = true ->
  between (if b =? 0xE0 then 0xA0 else 0x80) (if b =? 0xED then 0x9F else 0xBF) c1
  && is_cont c2 = true ->
  0x800 <= code_point3 b c1 c2.
Proof.
  unfold code_point3, is_cont; rewrite andb_true_iff, !between_spec, !cont_bits_mod.
  intros Hb [Hc1 Hc2].
  change 0x0F with (2 ^ 4 - 1); rewrite land_low by lia.
  rewrite (lor_shiftl_add (c1 mod 64)) by (try lia; apply Z.mod_pos_bound; lia).
  change (2 ^ 6) with 64.
  assert (0 <= c1 mod 64 < 64 /\ 0 <= c2 mod 64 < 64) as [B1 B2]
    by (split; apply Z.mod_pos_bound; lia).
  rewrite lor_shiftl_add by (change (2 ^ 12) with 4096; lia).
  change (2 ^ 4) with 16; change (2 ^ 12) with 4096.
  destruct (Z.eqb_spec b 0xE0), (Z.eqb_spec b 0xED);
    Z.to_euclidean_division_equations; lia.
Qed.

Lemma four_byte_large (b c1 c2 c3 : Z) :
  between 0xF0 0xF4 b = true ->
  between (if b =? 0xF0 then 0x90 else 0x80) (if b =? 0xF4 then 0x8F else 0xBF) c1
  && is_cont c2 && is_cont c3 = true ->
  0x10000 <= code_point4 b c1 c2 c3.
Proof.
  unfold code_point4, is_cont; rewrite !andb_true_iff, !between_spec, !cont_bits_mod.
  intros Hb [[Hc1 Hc2] Hc3].
  change 0x07 with (2 ^ 3 - 1); rewrite land_low by lia.
  assert (0 <= c1 mod 64 < 64 /\ 0 <= c2 mod 64 < 64 /\ 0 <= c3 mod 64 < 64)
    as (B1 & B2 & B3) by (repeat split; apply Z.mod_pos_bound; lia).
  rewrite (lor_shiftl_add (c2 mod 64)) by (change (2 ^ 6) with 64; lia).
  change (2 ^ 6) with 64.
  rewrite (lor_shiftl_add (c1 mod 64)) by (change (2 ^ 12) with 4096; lia).
  change (2 ^ 12) with 4096.
  rewrite lor_shiftl_add by (change (2 ^ 18) with 262144; lia).
  change (2 ^ 3) with 8; change (2 ^ 18) with 262144.
  destruct (Z.eqb_spec b 0xF0), (Z.eqb_spec b 0xF4);
    Z.to_euclidean_division_equations; lia.
Qed.

(** Decoding never yields more markers than there are 0xC3 bytes. *)
Lemma decode_utf8_marker_bounded (n : nat) :
  forall bs s, (length bs <= n)%nat -> decode_utf8 bs = Ok s ->
               (count_marker s <= count_marker bs)%nat.
Proof.
  induction n as [|n IH]; intros bs s Hlen H.
  { destruct bs; [injection H as <-; apply Nat.le_refl|simpl in Hlen; lia]. }
  destruct bs as [|b t]; [injection H as <-; apply Nat.le_refl|].
  simpl in Hlen; cbn [decode_utf8] in H.
  destruct (between 0x00 0x7F b) eqn:B1.
  { destruct (decode_utf8 t) as [s'|] eqn:D; [|discriminate].
    injection H as <-; rewrite !count_marker_cons.
    specialize (IH t s' ltac:(lia) D); lia. }
  destruct (between 0xC2 0xDF b) eqn:B2.
  { destruct t as [|c1 t1]; [discriminate|].
    destruct (is_cont c1) eqn:C1; [|discriminate].
    destruct (decode_utf8 t1) as [s'|] eqn:D; [|discriminate].
    injection H as <-; rewrite !count_marker_cons.
    specialize (IH t1 s' ltac:(simpl in Hlen; lia) D).
    pose proof (two_byte_marker b c1 B2 C1) as Hm.
    destruct (Z.eqb_spec (code_point2 b c1) marker) as [E|_]; [|lia].
    rewrite (Hm E), Z.eqb_refl; lia. }
  destruct (between 0xE0 0xEF b) eqn:B3.
  { destruct t as [|c1 [|c2 t2]]; try discriminate.
    match type of H with (if ?g then _ else _) = _ => destruct g eqn:G end;
      [|discriminate].
    destruct (decode_utf8 t2) as [s'|] eqn:D; [|discriminate].
    injection H as <-; rewrite !count_marker_cons.
    specialize (IH t2 s' ltac:(simpl in Hlen; lia) D).
    pose proof (three_byte_large b c1 c2 B3 G) as Hl.
    match goal with |- context [?cp =? marker] =>
      destruct (Z.eqb_spec cp marker) as [E|_] end;
      [unfold marker in E; rewrite E in Hl; lia|lia]. }
  destruct (between 0xF0 0xF4 b) eqn:B4; [|discriminate].
  destruct t as [|c1 [|c2 [|c3 t3]]]; try discriminate.
  match type of H with (if ?g then _ else _) = _ => destruct g eqn:G end;
    [|discriminate].
  destruct (decode_utf8 t3) as [s'|] eqn:D; [|discriminate].
  injection H as <-; rewrite !count_marker_cons.
  specialize (IH t3 s' ltac:(simpl in Hlen; lia) D).
  pose proof (four_byte_large b c1 c2 c3 B4 G) as Hl.
  match goal with |- context [?cp =? marker] =>
    destruct (Z.eqb_spec cp marker) as [E|_] end;
    [unfold marker in E; rewrite E in Hl; lia|lia].
Qed.

Lemma decode_utf8_marker (bs : bytes) (s : str) :
  decode_utf8 bs = Ok s -> (count_marker s <= count_marker bs)%nat.
Proof.
  apply (decode_utf8_marker_bounded (length bs)); lia.
Qed.

Lemma encode_latin1_same (text : str) (bs : bytes) :
  encode_latin1 text = Ok bs -> bs = text.
Proof.
  revert bs; induction text as [|c t IH]; intros bs H; simpl in H.
  - injection H as <-; reflexivity.
  - destruct ((0 <=? c) && (c <=? 0xFF)); [|discriminate].
    destruct (encode_latin1 t) as [bs'|]; [|discriminate].
    injection H as <-; f_equal; apply IH; reflexivity.
Qed.

(** Only the marker itself is encoded as the byte 0xC3 by [cp1252]. *)
Lemma cp1252_byte_marker (c b : Z) :
  cp1252_byte c = Some b -> b = marker -> c = marker.
Proof.
  unfold cp1252_byte, marker; intros H E.
  repeat match type of H with
         | (if ?g then _ else _) = _ => destruct g eqn:?
         end;
    try discriminate; injection H as H; subst; try discriminate; reflexivity.
Qed.

Lemma encode_cp1252_marker (text : str) (bs : bytes) :
  encode_cp1252 text = Ok bs -> (count_marker bs <= count_marker text)%nat.
Proof.
  revert bs; induction text as [|c t IH]; intros bs H; simpl in H.
  - injection H as <-; apply Nat.le_refl.
  - destruct (cp1252_byte c) as [b|] eqn:B; [|discriminate].
    destruct (encode_cp1252 t) as [bs'|]; [|discriminate].
    injection H as <-; rewrite !count_marker_cons.
    specialize (IH bs' eq_refl).
    destruct (Z.eqb_spec b marker) as [E|_]; [|lia].
    rewrite (cp1252_byte_marker c b B E), Z.eqb_refl; lia.
Qed.

(** ** The callback of the regular-expression pass *)

Lemma fix_remaining_mojibake_cases (m : str) :
  fix_remaining_mojibake m =
  Ok match redecode encode_latin1 m with
     | Ok fixed => fixed
     | Raise _ =>
         match redecode encode_cp1252 m with
         | Ok fixed => fixed
         | Raise _ => m
         end
     end.
Proof.
  unfold fix_remaining_mojibake, try_except, bind.
  destruct (redecode encode_latin1 m); [reflexivity|].
  destruct (redecode encode_cp1252 m); reflexivity.
Qed.

Lemma fix_remaining_mojibake_total (m : str) :
  exists r, fix_remaining_mojibake m = Ok r.
Proof.
  rewrite fix_remaining_mojibake_cases; eexists; reflexivity.
Qed.

Lemma redecode_latin1_marker (m r : str) :
  redecode encode_latin1 m = Ok r -> (count_marker r <= count_marker m)%nat.
Proof.
  unfold redecode, bind; intros H.
  destruct (encode_latin1 m) as [bs|] eqn:E; [|discriminate].
  apply encode_latin1_same in E; subst bs.
  apply decode_utf8_marker; exact H.
Qed.

Lemma redecode_cp1252_marker (m r : str) :
  redecode encode_cp1252 m = Ok r -> (count_marker r <= count_marker m)%nat.
Proof.
  unfold redecode, bind; intros H.
  destruct (encode_cp1252 m) as [bs|] eqn:E; [|discriminate].
  apply encode_cp1252_marker in E.
  apply decode_utf8_marker in H; lia.
Qed.

Lemma fix_remaining_mojibake_marker (m r : str) :
  fix_remaining_mojibake m = Ok r -> (count_marker r <= count_marker m)%nat.
Proof.
  rewrite fix_remaining_mojibake_cases; intros H; injection H as <-.
  destruct (redecode encode_latin1 m) eqn:L;
    [apply redecode_latin1_marker; exact L|].
  destruct (redecode encode_cp1252 m) eqn:C;
    [apply redecode_cp1252_marker; exact C|lia].
Qed.

(** ** [re.sub] *)

Lemma take_run_prefix (n : nat) (s : str) :
  s = take_run n s ++ skipn (length (take_run n s)) s.
Proof.
  revert s; induction n as [|n IH]; intros [|c s]; simpl; try reflexivity.
  destruct (in_class c); simpl; [f_equal; apply IH|reflexivity].
Qed.

Lemma pattern_match_Some (c : char) (t m : str) :
  pattern_match (c :: t) = Some m ->
  c = marker /\ m = c :: take_run 20 t /\ take_run 20 t <> [].
Proof.
  unfold pattern_match.
  destruct (Z.eqb_spec c marker) as [->|_]; [|discriminate].
  destruct (take_run 20 t) as [|x run]; [discriminate|].
  intros H; injection H as <-; repeat split; discriminate.
Qed.

Lemma pattern_match_iff (c : char) (t : str) :
  (exists m, pattern_match (c :: t) = Some m) <->
  c = marker /\ exists x t', t = x :: t' /\ in_class x = true.
Proof.
  unfold pattern_match; split.
  - intros [m H].
    destruct (Z.eqb_spec c marker) as [->|_]; [|discriminate].
    split; [reflexivity|].
    destruct t as [|x t']; [discriminate|].
    exists x, t'; split; [reflexivity|].
    cbn [take_run] in H; destruct (in_class x); [reflexivity|discriminate].
  - intros [-> (x & t' & -> & Hx)].
    rewrite Z.eqb_refl; cbn [take_run]; rewrite Hx; eexists; reflexivity.
Qed.

Lemma has_match_spec (s : str) :
  has_match s = true <->
  exists a x b, s = a ++ marker :: x :: b /\ in_class x = true.
Proof.
  induction s as [|c s IH].
  - split; [discriminate|].
    intros (a & x & b & E & _); destruct a; discriminate.
  - cbn [has_match].
    destruct (pattern_match (c :: s)) as [m|] eqn:P.
    + split; [intros _|reflexivity].
      destruct (proj1 (pattern_match_iff c s) (ex_intro _ m P))
        as [-> (x & t' & -> & Hx)].
      exists [], x, t'; split; [reflexivity|exact Hx].
    + rewrite IH; split.
      * intros (a & x & b & -> & Hx); exists (c :: a), x, b.
        split; [reflexivity|exact Hx].
      * intros ([|y a] & x & b & E & Hx).
        -- exfalso; simpl in E; injection E as -> ->.
           destruct (proj2 (pattern_match_iff marker (x :: b))) as [m Hm];
             [split; [reflexivity|exists x, b; split; [reflexivity|exact Hx]]|].
           congruence.
        -- simpl in E; injection E as _ ->.
           exists a, x, b; split; [reflexivity|exact Hx].
Qed.

Lemma has_match_absent (s : str) : ~ In marker s -> has_match s = false.
Proof.
  intros H; destruct (has_match s) eqn:E; [|reflexivity].
  apply has_match_spec in E as (a & x & b & -> & _).
  exfalso; apply H, in_or_app; right; left; reflexivity.
Qed.

(** A string in which [old] occurs contains the matches of [old]. *)
Lemma has_match_occurs (old s : str) :
  has_match old = true -> occurs old s -> has_match s = true.
Proof.
  intros H (a & b & ->).
  apply has_match_spec in H as (a' & x & b' & -> & Hx).
  apply has_match_spec; exists (a ++ a'), x, (b' ++ b).
  split; [|exact Hx].
  rewrite <- !app_assoc; reflexivity.
Qed.

Section Sub.

Variable repl : str -> result str.

Lemma sub_from_skip (skip : nat) (s : str) :
  sub_from repl skip s = sub_from repl 0 (skipn skip s).
Proof.
  revert skip; induction s as [|c s IH]; intros [|k]; try reflexivity.
  apply IH.
Qed.

(** The unfolding of [re_sub] where a match starts, and where none does. *)
Lemma re_sub_match (m rest : str) :
  pattern_match (m ++ rest) = Some m ->
  re_sub repl (m ++ rest)
  = (r <- repl m ;; out <- re_sub repl rest ;; Ok (r ++ out)).
Proof.
  intros H; unfold re_sub.
  destruct m as [|c run].
  - destruct rest as [|c t]; [discriminate|].
    apply pattern_match_Some in H as (_ & H & _); discriminate.
  - change ((c :: run) ++ rest) with (c :: (run ++ rest)) in *.
    cbn [sub_from]; rewrite H.
    cbn [length Nat.pred]; rewrite (sub_from_skip (length run)).
    rewrite skipn_app, skipn_all, Nat.sub_diag; reflexivity.
Qed.

Lemma re_sub_next (c : char) (s : str) :
  pattern_match (c :: s) = None ->
  re_sub repl (c :: s) = (out <- re_sub repl s ;; Ok (c :: out)).
Proof.
  intros H; unfold re_sub; cbn [sub_from]; rewrite H; reflexivity.
Qed.

Lemma sub_from_no_match (s : str) :
  has_match s = false -> sub_from repl 0 s = Ok s.
Proof.
  induction s as [|c s IH]; [reflexivity|].
  cbn [has_match sub_from].
  destruct (pattern_match (c :: s)); [discriminate|].
  intros H; rewrite (IH H); reflexivity.
Qed.

Hypothesis repl_total : forall m, exists r, repl m = Ok r.

Lemma sub_from_total (s : str) :
  forall skip, exists out, sub_from repl skip s = Ok out.
Proof.
  induction s as [|c s IH]; intros skip; [exists []; reflexivity|].
  cbn [sub_from]; destruct skip as [|k]; [|apply IH].
  destruct (pattern_match (c :: s)) as [m|].
  - destruct (repl_total m) as [r ->].
    destruct (IH (Nat.pred (length m))) as [rest ->].
    eexists; reflexivity.
  - destruct (IH 0%nat) as [rest ->]; eexists; reflexivity.
Qed.

Variable mu : str -> nat.
Hypothesis mu_app : forall a b, mu (a ++ b) = (mu a + mu b)%nat.
Hypothesis repl_measure : forall m r, repl m = Ok r -> (mu r <= mu m)%nat.

Lemma sub_from_measure (s : str) :
  forall skip out, sub_from repl skip s = Ok out ->
                   (mu out <= mu (skipn skip s))%nat.
Proof.
  induction s as [|c s IH]; intros skip out H.
  - injection H as <-; destruct skip; apply Nat.le_refl.
  - cbn [sub_from] in H; destruct skip as [|k]; [|apply IH; exact H].
    cbn [skipn].
    destruct (pattern_match (c :: s)) as [m|] eqn:P.
    + apply pattern_match_Some in P as (_ & -> & _).
      destruct (repl (c :: take_run 20 s)) as [r|] eqn:R; [|discriminate].
      cbn [bind length Nat.pred] in H.
      destruct (sub_from repl (length (take_run 20 s)) s) as [rest|] eqn:S;
        [|discriminate].
      injection H as <-.
      apply repl_measure in R; apply IH in S.
      pose proof (f_equal mu (take_run_prefix 20 s)) as E.
      rewrite mu_app in E.
      rewrite mu_app, (mu_cons mu mu_app c s).
      rewrite (mu_cons mu mu_app c) in R; lia.
    + destruct (sub_from repl 0 s) as [rest|] eqn:S; [|discriminate].
      injection H as <-; apply IH in S; cbn [skipn] in S.
      rewrite (mu_cons mu mu_app c rest), (mu_cons mu mu_app c s); lia.
Qed.

End Sub.

(** ** The substitution pass *)

Lemma substitution_pass_app (pre post : list (str * str)) (content : str) :
  substitution_pass (pre ++ post) content
  = substitution_pass post (substitution_pass pre content).
Proof.
  apply fold_left_app.
Qed.

Lemma substitution_pass_absent (table : list (str * str)) (content : str) :
  (forall bad good, In (bad, good) table -> ~ occurs bad content) ->
  substitution_pass table content = content.
Proof.
  unfold substitution_pass.
  induction table as [|[bad good] table IH]; intros H; [reflexivity|].
  cbn [fold_left fst snd].
  rewrite replace_absent by (apply (H bad good); left; reflexivity).
  apply IH; intros bad' good' Hin; apply (H bad' good'); right; exact Hin.
Qed.

(** No value of the table shares a character with any key of the table. *)
Lemma replacements_values_fresh_all :
  Forall (fun entry =>
            Forall (fun entry' => fresh_for (snd entry) (fst entry') = true)
                   replacements) replacements.
Proof.
  apply (Forall_impl _ (P := fun entry : str * str =>
           forallb (fun entry' : str * str => fresh_for (snd entry) (fst entry'))
                   replacements = true)).
  - intros entry H; apply forallb_Forall; exact H.
  - apply forallb_Forall; vm_compute; reflexivity.
Qed.

(** Once the entries [done] have been applied and have left none of their
    keys, applying the entries [todo] leaves no key of either. *)
Lemma substitution_pass_clears (todo : list (str * str)) :
  forall done content,
    incl (done ++ todo) replacements ->
    (forall bad good, In (bad, good) done -> ~ occurs bad content) ->
    forall bad good, In (bad, good) (done ++ todo) ->
                     ~ occurs bad (substitution_pass todo content).
Proof.
  induction todo as [|[b g] todo IH]; intros done content Hincl Hdone bad good Hin.
  - rewrite app_nil_r in Hin; apply (Hdone bad good Hin).
  - change (substitution_pass ((b, g) :: todo) content)
      with (substitution_pass todo (replace b g content)).
    assert (Hbg : In (b, g) replacements)
      by (apply Hincl, in_or_app; right; left; reflexivity).
    pose proof (proj1 (Forall_forall _ _) replacements_keys_nonempty _ Hbg) as Hb.
    pose proof (proj1 (Forall_forall _ _) replacements_values_fresh_all _ Hbg)
      as Hfresh.
    rewrite Forall_forall in Hfresh; cbn [fst snd] in *.
    pose proof (replace_Replaced b g Hb content) as R.
    apply (IH (done ++ [(b, g)])) with (good := good).
    + rewrite <- app_assoc; exact Hincl.
    + intros bad' good' Hin'; apply in_app_or in Hin' as [Hin'|[E|[]]].
      * assert (Hbad' : In (bad', good') replacements)
          by (apply Hincl, in_or_app; left; exact Hin').
        destruct (fresh_for_spec _ _ (Hfresh _ Hbad')) as [Hg Hd].
        apply (Replaced_keeps_absent bad' b g content _ Hg Hd R).
        apply (Hdone bad' good' Hin').
      * injection E as <- <-.
        destruct (fresh_for_spec _ _ (Hfresh _ Hbg)) as [Hg Hd].
        apply (Replaced_exhaustive b g content _ Hb Hg Hd R).
    + rewrite <- app_assoc; exact Hin.
Qed.

(** The substitution pass leaves no key of the table, so applying it a
    second time changes nothing. *)
Lemma substitution_pass_idempotent (content : str) :
  substitution_pass replacements (substitution_pass replacements content)
  = substitution_pass replacements content.
Proof.
  apply substitution_pass_absent.
  apply (substitution_pass_clears replacements []);
    [apply incl_refl|intros bad good []].
Qed.

(** Every key is itself a match of the pattern, so a text without a
    match holds no key. *)
Lemma replacements_keys_match :
  Forall (fun entry => has_match (fst entry) = true) replacements.
Proof.
  apply forallb_Forall; vm_compute; reflexivity.
Qed.

Lemma no_match_no_key (s : str) :
  has_match s = false ->
  forall bad good, In (bad, good) replacements -> ~ occurs bad s.
Proof.
  intros H bad good Hin Ho.
  pose proof (proj1 (Forall_forall _ _) replacements_keys_match _ Hin) as Hk.
  rewrite (has_match_occurs bad s Hk Ho) in H; discriminate.
Qed.

(** ** The transformation as a whole *)

Lemma repair_with_total (table : list (str * str)) (content : str) :
  exists out, repair_with table content = Ok out.
Proof.
  apply sub_from_total, fix_remaining_mojibake_total.
Qed.

Lemma repair_no_match (content : str) :
  has_match content = false -> repair content = Ok content.
Proof.
  intros H; unfold repair, repair_with, re_sub.
  rewrite substitution_pass_absent by (apply no_match_no_key; exact H).
  apply sub_from_no_match; exact H.
Qed.

(** Every key but the last is repaired to its value. *)
Lemma repair_other_keys :
  Forall (fun entry => repair (fst entry) = Ok (snd entry))
         (removelast replacements).
Proof.
  apply (Forall_impl _ (P := fun entry : str * str =>
           match repair (fst entry) with
           | Ok out => if list_eq_dec Z.eq_dec out (snd entry) then true else false
           | Raise _ => false
           end = true)).
  - intros [k v]; cbn [fst snd]; destruct (repair k) as [out|]; [|discriminate].
    destruct (list_eq_dec Z.eq_dec out v) as [->|]; [reflexivity|discriminate].
  - apply forallb_Forall; vm_compute; reflexivity.
Qed.

(** C1: a text that is one key of the table should be repaired to the value
    of that key.  At the key of the last entry, [World/apps], the script
    does not do so: the entry [Globe], visited earlier, has the same key
    without the final space and replaces it first, so the space is left
    behind the value and the last entry never applies. *)
Theorem repair_world_apps_key :
  nth 5 replacements ([], []) = (globe_key, globe_value) /\
  last replacements ([], []) = (world_apps_key, globe_value) /\
  repair world_apps_key = Ok (globe_value ++ [0x20]) /\
  repair world_apps_key <> Ok globe_value.
Proof.
  repeat split; try (vm_compute; reflexivity).
  assert (E : repair world_apps_key = Ok (globe_value ++ [0x20]))
    by (vm_compute; reflexivity).
  rewrite E; discriminate.
Qed.

(** C2, as stated: repairing twice is the same as repairing once.  It
    fails on the four characters U+00C3 U+0083 U+00C2 U+00A9: the first
    repair decodes them to U+00C3 U+00A9, which the second decodes again,
    to U+00E9. *)
Lemma repair_twice_differs :
  repair [0xC3; 0x83; 0xC2; 0xA9] = Ok [0xC3; 0xA9] /\
  repair_twice [0xC3; 0x83; 0xC2; 0xA9] = Ok [0xE9] /\
  repair_twice [0xC3; 0x83; 0xC2; 0xA9] <> repair [0xC3; 0x83; 0xC2; 0xA9].
Proof.
  assert (E1 : repair [0xC3; 0x83; 0xC2; 0xA9] = Ok [0xC3; 0xA9])
    by (vm_compute; reflexivity).
  assert (E2 : repair_twice [0xC3; 0x83; 0xC2; 0xA9] = Ok [0xE9])
    by (vm_compute; reflexivity).
  rewrite E1, E2; repeat split; discriminate.
Qed.

(** C2, amended: when the repaired text holds no match of the pattern
    (the marker followed by a character that is neither white space nor
    an angle bracket), repairing it again returns it unchanged. *)
Theorem repair_twice_settled (text repaired : str) :
  repair text = Ok repaired ->
  has_match repaired = false ->
  repair_twice text = repair text.
Proof.
  intros H Hno; unfold repair_twice; rewrite H; cbn [bind].
  apply repair_no_match; exact Hno.
Qed.

Lemma repair_twice_settled_witness :
  repair scenario_1 = Ok scenario_1_repaired /\
  has_match scenario_1_repaired = false /\
  repair_twice scenario_1 = repair scenario_1.
Proof.
  assert (E : repair scenario_1 = Ok scenario_1_repaired)
    by (vm_compute; reflexivity).
  assert (N : has_match scenario_1_repaired = false) by reflexivity.
  exact (conj E (conj N (repair_twice_settled _ _ E N))).
Defined.

(** C3: the transformation is total: on every text it returns a string,
    and no exception reaches its caller. *)
Theorem repair_total (content : str) : exists out, repair content = Ok out.
Proof.
  apply repair_with_total.
Qed.

(** [fix_mojibake] makes the first attempt only, and does not raise
    either. *)
Lemma fix_mojibake_cases (text : str) :
  fix_mojibake text =
  Ok match redecode encode_latin1 text with
     | Ok fixed => fixed
     | Raise _ => text
     end.
Proof.
  unfold fix_mojibake, try_except, bind.
  destruct (redecode encode_latin1 text); reflexivity.
Qed.

(** C4: the callback first tries the Latin-1 bytes of the fragment read as
    UTF-8; when that raises it tries the cp1252 bytes, once; when that
    raises too it returns the fragment itself.  It never raises.  Nor does
    [fix_mojibake], which returns the result of the first attempt or the
    fragment itself. *)
Theorem fix_remaining_mojibake_policy (mojibake : str) :
  (exists r,
      fix_remaining_mojibake mojibake = Ok r /\
      (forall fixed, redecode encode_latin1 mojibake = Ok fixed -> r = fixed) /\
      (forall e fixed,
          redecode encode_latin1 mojibake = Raise e ->
          redecode encode_cp1252 mojibake = Ok fixed -> r = fixed) /\
      (forall e e',
          redecode encode_latin1 mojibake = Raise e ->
          redecode encode_cp1252 mojibake = Raise e' -> r = mojibake)) /\
  (exists r,
      fix_mojibake mojibake = Ok r /\
      (forall fixed, redecode encode_latin1 mojibake = Ok fixed -> r = fixed) /\
      (forall e, redecode encode_latin1 mojibake = Raise e -> r = mojibake)).
Proof.
  split.
  - eexists; split; [apply fix_remaining_mojibake_cases|].
    repeat split.
    + intros fixed ->; reflexivity.
    + intros e fixed -> ->; reflexivity.
    + intros e e' -> ->; reflexivity.
  - eexists; split; [apply fix_mojibake_cases|].
    split.
    + intros fixed ->; reflexivity.
    + intros e ->; reflexivity.
Qed.

Lemma fix_remaining_mojibake_policy_witness :
  redecode encode_latin1 [0xC3; 0xA2; 0xE2; 0x201A; 0xAC; 0xE2; 0x201E; 0xA2]
  = Raise UnicodeEncodeError /\
  fix_remaining_mojibake [0xC3; 0xA2; 0xE2; 0x201A; 0xAC; 0xE2; 0x201E; 0xA2]
  = Ok [0xE2; 0x20AC; 0x2122] /\
  fix_mojibake [0xC3; 0xA2; 0xE2; 0x201A; 0xAC; 0xE2; 0x201E; 0xA2]
  = Ok [0xC3; 0xA2; 0xE2; 0x201A; 0xAC; 0xE2; 0x201E; 0xA2].
Proof.
  split; [reflexivity|].
  destruct (fix_remaining_mojibake_policy
              [0xC3; 0xA2; 0xE2; 0x201A; 0xAC; 0xE2; 0x201E; 0xA2])
    as [(r & Hr & _ & Hcp & _) (r' & Hr' & _ & Hsame)].
  rewrite Hr, Hr'; split; f_equal.
  - apply (Hcp UnicodeEncodeError); reflexivity.
  - apply (Hsame UnicodeEncodeError); reflexivity.
Defined.

(** C5: a text that holds no key of the table and no marker is returned
    as it is. *)
Theorem repair_clean_text (text : str) :
  (forall bad good, In (bad, good) replacements -> ~ occurs bad text) ->
  ~ In marker text ->
  repair text = Ok text.
Proof.
  intros Hkeys Hmarker; unfold repair, repair_with, re_sub.
  rewrite substitution_pass_absent by exact Hkeys.
  apply sub_from_no_match, has_match_absent; exact Hmarker.
Qed.

Lemma repair_clean_text_witness :
  ~ In marker scenario_1_repaired /\
  repair scenario_1_repaired = Ok scenario_1_repaired.
Proof.
  assert (Hmarker : ~ In marker scenario_1_repaired)
    by (unfold scenario_1_repaired, marker; simpl; intuition discriminate).
  split; [exact Hmarker|].
  apply repair_clean_text; [|exact Hmarker].
  apply no_match_no_key; reflexivity.
Defined.

(** C6: the substitution pass never makes the text longer, no value of
    the table being longer than its key. *)
Theorem substitution_pass_length :
  Forall (fun entry => (length (snd entry) <= length (fst entry))%nat) replacements /\
  forall text, (length (substitution_pass replacements text) <= length text)%nat.
Proof.
  split; [exact replacements_values_shorter|].
  apply (substitution_pass_measure (@length char) (@length_app char)).
  exact replacements_values_shorter.
Qed.

(** [Replaced] and [Applied] determine the text they lead to. *)
Lemma app_same_length {A : Type} (a b c d : list A) :
  a ++ b = c ++ d -> length a = length c -> a = c /\ b = d.
Proof.
  revert c; induction a as [|x a IH]; intros [|y c] E Hlen;
    try discriminate; [split; [reflexivity|exact E]|].
  injection E as -> E; injection Hlen as Hlen.
  destruct (IH c E Hlen) as [-> ->]; split; reflexivity.
Qed.

Lemma Replaced_functional (old new s s1 s2 : str) :
  Replaced old new s s1 -> Replaced old new s s2 -> s1 = s2.
Proof.
  intros R1; revert s2.
  induction R1 as [s Hno|pre rest rest' Hfirst Hrest IH]; intros s2 R2.
  - destruct R2 as [s Hno2|pre2 rest2 rest2' Hfirst2 Hrest2]; [reflexivity|].
    exfalso; apply Hno; exists pre2, rest2; reflexivity.
  - remember (pre ++ old ++ rest) as s eqn:Es.
    destruct R2 as [s Hno2|pre2 rest2 rest2' Hfirst2 Hrest2].
    + exfalso; apply Hno2; exists pre, rest; exact Es.
    + assert (Hlen : length pre2 = length pre).
      { apply Nat.le_antisymm.
        - apply (Hfirst2 pre rest); exact Es.
        - apply (Hfirst pre2 rest2); reflexivity. }
      destruct (app_same_length _ _ _ _ Es Hlen) as [-> E].
      apply app_inv_head in E; subst rest2.
      rewrite (IH rest2' Hrest2); reflexivity.
Qed.

Lemma Applied_functional (table : list (str * str)) (s s1 s2 : str) :
  Applied table s s1 -> Applied table s s2 -> s1 = s2.
Proof.
  intros A1; revert s2.
  induction A1 as [s|bad good table s t s1 R _ IH]; intros s2 A2.
  - inversion A2; reflexivity.
  - inversion A2 as [|bad' good' table' s' t' s2' R' A' E1 E2 E3]; subst.
    rewrite (Replaced_functional _ _ _ _ _ R' R) in A'.
    apply IH; exact A'.
Qed.

Lemma Applied_app (pre post : list (str * str)) (s s1 s2 : str) :
  Applied pre s s1 -> Applied post s1 s2 -> Applied (pre ++ post) s s2.
Proof.
  induction 1 as [s|bad good table s t s1 R _ IH]; intros A2; [exact A2|].
  cbn [app]; apply (Applied_cons bad good _ s t s2 R), IH; exact A2.
Qed.

(** The loop does what [Applied] says. *)
Lemma substitution_pass_Applied (table : list (str * str)) :
  Forall (fun entry => fst entry <> []) table ->
  forall content, Applied table content (substitution_pass table content).
Proof.
  induction 1 as [|[bad good] table Hbad _ IH]; intros content.
  - apply Applied_nil.
  - apply (Applied_cons bad good table content (replace bad good content));
      [apply replace_Replaced; exact Hbad|apply IH].
Qed.

(** C7: the loop applies the entries one after the other in the order of
    the table: the entries before an entry first, then that entry on the
    whole text they leave, then the entries after it on what it leaves.
    The pass of the entry replaces every occurrence of its key, found
    from the left, by its value, and leaves no occurrence of that key.
    The text the loop returns is the only one that the entries applied
    in this way lead to. *)
Theorem substitution_pass_entry
  (pre post : list (str * str)) (bad good text : str) :
  replacements = pre ++ (bad, good) :: post ->
  Applied pre text (substitution_pass pre text) /\
  Replaced bad good (substitution_pass pre text)
           (replace bad good (substitution_pass pre text)) /\
  ~ occurs bad (replace bad good (substitution_pass pre text)) /\
  Applied post (replace bad good (substitution_pass pre text))
          (substitution_pass replacements text) /\
  Applied replacements text (substitution_pass replacements text) /\
  (forall out, Applied replacements text out ->
               out = substitution_pass replacements text).
Proof.
  intros E.
  assert (Hin : In (bad, good) replacements)
    by (rewrite E; apply in_or_app; right; left; reflexivity).
  pose proof replacements_keys_nonempty as Hkeys.
  pose proof Hkeys as Hsplit; rewrite E in Hsplit.
  apply Forall_app in Hsplit as [Hpre Hpost].
  apply Forall_cons_iff in Hpost as [Hbad Hpost]; cbn [fst] in Hbad.
  pose proof (proj1 (Forall_forall _ _) replacements_values_fresh _ Hin) as Hgood.
  apply fresh_for_spec in Hgood as [Hgood Hfresh]; cbn [fst snd] in *.
  pose proof (replace_Replaced bad good Hbad (substitution_pass pre text)) as R.
  pose proof (substitution_pass_Applied replacements Hkeys text) as A.
  assert (Epass : substitution_pass replacements text
                  = substitution_pass post
                      (replace bad good (substitution_pass pre text)))
    by (rewrite E, substitution_pass_app; reflexivity).
  repeat split.
  - apply substitution_pass_Applied; exact Hpre.
  - exact R.
  - exact (Replaced_exhaustive _ _ _ _ Hbad Hgood Hfresh R).
  - rewrite Epass; apply substitution_pass_Applied; exact Hpost.
  - exact A.
  - intros out Hout; apply (Applied_functional replacements text); assumption.
Qed.

Lemma substitution_pass_entry_witness :
  replacements
  = firstn 1 replacements
    ++ (green_circle_key, green_circle_value) :: skipn 2 replacements /\
  substitution_pass replacements
    (green_circle_key ++ [0x78] ++ green_circle_key)
  = green_circle_value ++ [0x78] ++ green_circle_value /\
  Applied (firstn 1 replacements)
    (green_circle_key ++ [0x78] ++ green_circle_key)
    (substitution_pass (firstn 1 replacements)
       (green_circle_key ++ [0x78] ++ green_circle_key)) /\
  Replaced green_circle_key green_circle_value
    (substitution_pass (firstn 1 replacements)
       (green_circle_key ++ [0x78] ++ green_circle_key))
    (replace green_circle_key green_circle_value
       (substitution_pass (firstn 1 replacements)
          (green_circle_key ++ [0x78] ++ green_circle_key))) /\
  ~ occurs green_circle_key
      (replace green_circle_key green_circle_value
         (substitution_pass (firstn 1 replacements)
            (green_circle_key ++ [0x78] ++ green_circle_key))) /\
  Applied (skipn 2 replacements)
    (replace green_circle_key green_circle_value
       (substitution_pass (firstn 1 replacements)
          (green_circle_key ++ [0x78] ++ green_circle_key)))
    (substitution_pass replacements
       (green_circle_key ++ [0x78] ++ green_circle_key)) /\
  Applied replacements (green_circle_key ++ [0x78] ++ green_circle_key)
    (substitution_pass replacements
       (green_circle_key ++ [0x78] ++ green_circle_key)) /\
  (forall out,
      Applied replacements (green_circle_key ++ [0x78] ++ green_circle_key) out ->
      out = substitution_pass replacements
              (green_circle_key ++ [0x78] ++ green_circle_key)).
Proof.
  split; [reflexivity|].
  split; [vm_compute; reflexivity|].
  apply (substitution_pass_entry (firstn 1 replacements) (skipn 2 replacements)).
  reflexivity.
Defined.

(** C8: when a key of the table occurs inside another key, the two keys
    have the same value. *)
Theorem replacements_overlap_invariant (k1 v1 k2 v2 : str) :
  In (k1, v1) replacements -> In (k2, v2) replacements ->
  k1 <> k2 -> occurs k1 k2 -> v1 = v2.
Proof.
  intros H1 H2 Hne Ho.
  assert (Hall : forallb (fun e1 : str * str =>
            forallb (fun e2 : str * str =>
              if list_eq_dec Z.eq_dec (fst e1) (fst e2) then true
              else if contains (fst e1) (fst e2)
                   then if list_eq_dec Z.eq_dec (snd e1) (snd e2)
                        then true else false
                   else true) replacements) replacements = true)
    by (vm_compute; reflexivity).
  rewrite forallb_forall in Hall; specialize (Hall _ H1).
  rewrite forallb_forall in Hall; specialize (Hall _ H2).
  cbn [fst snd] in Hall.
  destruct (list_eq_dec Z.eq_dec k1 k2); [contradiction|].
  apply contains_occurs in Ho; rewrite Ho in Hall.
  destruct (list_eq_dec Z.eq_dec v1 v2); [assumption|discriminate].
Qed.

Lemma replacements_overlap_invariant_witness :
  In (globe_key, globe_value) replacements /\
  In (world_apps_key, globe_value) replacements /\
  globe_key <> world_apps_key /\
  occurs globe_key world_apps_key /\
  globe_value = globe_value.
Proof.
  assert (H1 : In (globe_key, globe_value) replacements)
    by (apply (nth_In replacements ([], []) (n := 5)); vm_compute; lia).
  assert (H2 : In (world_apps_key, globe_value) replacements)
    by (apply (nth_In replacements ([], []) (n := 36)); vm_compute; lia).
  assert (H3 : globe_key <> world_apps_key) by discriminate.
  assert (H4 : occurs globe_key world_apps_key)
    by (exists [], [0x20]; reflexivity).
  exact (conj H1 (conj H2 (conj H3 (conj H4
           (replacements_overlap_invariant _ _ _ _ H1 H2 H3 H4))))).
Defined.

(** C10: the transformation never adds markers: no value of the table
    holds one, the callback returns at most as many as its fragment had,
    and so the repaired text has at most as many as the text. *)
Theorem repair_marker_count :
  Forall (fun entry => count_marker (snd entry) = 0%nat) replacements /\
  (forall mojibake, exists fixed,
      fix_remaining_mojibake mojibake = Ok fixed /\
      (count_marker fixed <= count_marker mojibake)%nat) /\
  (forall text, exists out,
      repair text = Ok out /\ (count_marker out <= count_marker text)%nat).
Proof.
  split; [|split].
  - apply (Forall_impl _ (P := fun entry : str * str =>
             Nat.eqb (count_marker (snd entry)) 0 = true)).
    + intros entry H; apply Nat.eqb_eq; exact H.
    + apply forallb_Forall; vm_compute; reflexivity.
  - intros m; destruct (fix_remaining_mojibake_total m) as [r Hr].
    exists r; split; [exact Hr|apply fix_remaining_mojibake_marker; exact Hr].
  - intros text; destruct (repair_with_total replacements text) as [out Hout].
    fold (repair text) in Hout.
    exists out; split; [exact Hout|].
    unfold repair, repair_with, re_sub in Hout.
    apply (sub_from_measure _ count_marker count_marker_app
             fix_remaining_mojibake_marker) in Hout.
    cbn [skipn] in Hout.
    etransitivity; [exact Hout|].
    apply (substitution_pass_measure count_marker count_marker_app).
    exact replacements_values_markerless.
Qed.

(** ** The batch loop *)

(** What [print] can always write: the digits of a number and the fixed
    words of the three lines are ASCII. *)
Lemma digits_ascii (d : Decimal.uint) : forallb is_ascii (digits d) = true.
Proof.
  induction d; cbn [digits forallb]; rewrite ?IHd; reflexivity.
Qed.

Lemma decimal_ascii (n : nat) : forallb is_ascii (decimal n) = true.
Proof.
  apply digits_ascii.
Qed.

Lemma decimal_Z_ascii (z : Z) : forallb is_ascii (decimal_Z z) = true.
Proof.
  unfold decimal_Z; destruct (Z.to_int z) as [d|d]; cbn [forallb];
    rewrite digits_ascii; reflexivity.
Qed.

Lemma stdout_encodes_ascii (stdout_extra : char -> bool) (s : str) :
  forallb is_ascii s = true -> forallb (stdout_encodes stdout_extra) s = true.
Proof.
  induction s as [|c s IH]; [reflexivity|].
  cbn [forallb]; intros H; apply andb_true_iff in H; destruct H as [Hc Hs].
  unfold stdout_encodes at 1; unfold is_ascii in Hc; rewrite Hc, (IH Hs).
  reflexivity.
Qed.

Section Printing.

Variable filesystem : Type.
Variable error : Type.
Variable str_of : error -> str.
Variable stdout_extra : char -> bool.
Variable of_exn : exn -> error.

Let encodes := forallb (stdout_encodes stdout_extra).
Let print_ := @print filesystem error str_of stdout_extra of_exn.

(** A failed [print] changes nothing; a successful one adds its line to
    the trace. *)
Lemma print_cases (l : line error) (st : state filesystem error) :
  (print_ l st = (emit (Print l) st, None)
   /\ encodes (text_of str_of l) = true) \/
  (print_ l st = (st, Some (of_exn UnicodeEncodeError))
   /\ encodes (text_of str_of l) = false).
Proof.
  unfold print_, print, encodes.
  destruct (forallb (stdout_encodes stdout_extra) (text_of str_of l));
    [left|right]; split; reflexivity.
Qed.

(** The line of the counts is written when the name of the file can be. *)
Lemma print_Counts (filepath : str) (before_count after_count : nat)
  (st : state filesystem error) :
  encodes filepath = true ->
  print_ (Counts filepath before_count after_count) st
  = (emit (Print (Counts filepath before_count after_count)) st, None).
Proof.
  unfold encodes, print_, print; intros H; cbn [text_of].
  rewrite !forallb_app, H.
  rewrite !(stdout_encodes_ascii stdout_extra _ (decimal_ascii _)).
  reflexivity.
Qed.

(** The line of an error is written when the name of the file and the
    text of the error can be. *)
Lemma print_ErrorWith (filepath : str) (e : error)
  (st : state filesystem error) :
  encodes filepath = true -> encodes (str_of e) = true ->
  print_ (ErrorWith filepath e) st
  = (emit (Print (ErrorWith filepath e)) st, None).
Proof.
  unfold encodes, print_, print; intros H He; cbn [text_of].
  unfold char in He; rewrite !forallb_app, H, He; reflexivity.
Qed.

(** The line of the total is always written. *)
Lemma print_TotalFixed (total : Z) (st : state filesystem error) :
  print_ (TotalFixed total) st = (emit (Print (TotalFixed total)) st, None).
Proof.
  unfold print_, print; cbn [text_of].
  rewrite forallb_app.
  rewrite (stdout_encodes_ascii stdout_extra _ (decimal_Z_ascii _)).
  reflexivity.
Qed.

End Printing.

Section FixAllFilesProperties.

Variable filesystem : Type.
Variable error : Type.
Variable is_Exception : error -> bool.
Variable read_text : str -> filesystem -> outcome error str.
Variable fix_text : str -> outcome error str.
Variable write_text : str -> str -> filesystem -> filesystem * option error.
Variable str_of : error -> str.
Variable stdout_extra : char -> bool.
Variable of_exn : exn -> error.

Let body :=
  try_body read_text fix_text write_text str_of stdout_extra of_exn.
Let loop :=
  for_loop is_Exception read_text fix_text write_text str_of stdout_extra
    of_exn.

(** When the handler cannot write its line, the exception of its [print]
    leaves the loop: the files after this one are not processed. *)
Lemma for_loop_handler_raises (filepath : str) (rest : list str)
  (st st' : state filesystem error) (e : error) :
  body filepath st = (st', Some e) ->
  is_Exception e = true ->
  forallb (stdout_encodes stdout_extra) (text_of str_of (ErrorWith filepath e))
  = false ->
  loop (filepath :: rest) st = (st', Some (of_exn UnicodeEncodeError)).
Proof.
  unfold loop, body; intros B E P; cbn [for_loop].
  rewrite B, E; unfold print; rewrite P; reflexivity.
Qed.

End FixAllFilesProperties.

(** C9: the batch [é.js], [b.html] under a [sys.stdout] whose encoding is
    ASCII.  Reading [é.js] raises [UnicodeDecodeError], which the handler
    catches; the [print] of the handler raises [UnicodeEncodeError] at
    the [é] of the name, outside the [try], and that exception ends the
    loop and the script: [b.html] is never opened and no total is
    printed.  With the name [a.js] in place of [é.js] the same loop goes
    on to [b.html] and rewrites it. *)
Theorem for_loop_aborts_in_handler :
  try_body toy_read repair toy_write toy_str_of (fun _ => false)
    (fun e => e) e_acute_js ascii_start
  = (emit (OpenRead e_acute_js) ascii_start, Some UnicodeDecodeError) /\
  ascii_loop [e_acute_js; b_html] ascii_start
  = (emit (OpenRead e_acute_js) ascii_start, Some UnicodeEncodeError) /\
  ~ In (OpenRead b_html)
      (trace (fst (ascii_loop [e_acute_js; b_html] ascii_start))) /\
  fs (fst (ascii_loop [e_acute_js; b_html] ascii_start)) = fs ascii_start /\
  ascii_script
  = (emit (OpenRead e_acute_js) ascii_start, Some UnicodeEncodeError) /\
  snd (ascii_loop [a_js; b_html] toy_start) = None /\
  fs (fst (ascii_loop [a_js; b_html] toy_start))
  = [(b_html, Some [0xE9]); (a_js, None); (b_html, Some [0xC3; 0xA9])].
Proof.
  repeat split; try (vm_compute; reflexivity).
  vm_compute; intros [H|[]]; discriminate H.
Qed.

(** Under a [sys.stdout] that has every character the batch of [a.js]
    and [b.html] runs to its end, and the second file is rewritten
    although the first one failed. *)
Lemma toy_loop_rewrites_b_html :
  snd (toy_loop [a_js; b_html] toy_start) = None /\
  fs (fst (toy_loop [a_js; b_html] toy_start))
  = [(b_html, Some [0xE9]); (a_js, None); (b_html, Some [0xC3; 0xA9])].
Proof.
  split; vm_compute; reflexivity.
Qed.

(** * Further properties *)

(** ** The round trip through UTF-8 *)

Lemma between_true (lo hi x : Z) : lo <= x <= hi -> between lo hi x = true.
Proof.
  intros H; apply between_spec; exact H.
Qed.

Lemma between_false (lo hi x : Z) : x < lo \/ hi < x -> between lo hi x = false.
Proof.
  intros H; destruct (between lo hi x) eqn:E; [|reflexivity].
  apply between_spec in E; lia.
Qed.

Lemma between_false_inv (lo hi x : Z) :
  between lo hi x = false -> x < lo \/ hi < x.
Proof.
  unfold between; intros H; apply andb_false_iff in H as [H|H];
    apply Z.leb_gt in H; lia.
Qed.

Lemma lor_high (k n x : Z) :
  0 <= n -> 0 <= x < 2 ^ n -> Z.lor (k * 2 ^ n) x = k * 2 ^ n + x.
Proof.
  intros Hn Hx; rewrite <- lor_shiftl_add by assumption.
  rewrite Z.shiftl_mul_pow2 by exact Hn; reflexivity.
Qed.

Lemma land_63 (x : Z) : Z.land x 0x3F = x mod 64.
Proof.
  apply cont_bits_mod.
Qed.

Lemma cont_byte (x : Z) : Z.lor 0x80 (Z.land x 0x3F) = 128 + x mod 64.
Proof.
  rewrite land_63; change 0x80 with (2 * 2 ^ 6).
  rewrite lor_high by (try lia; apply Z.mod_pos_bound; lia); reflexivity.
Qed.

Lemma decode_two (c : Z) (rest : bytes) :
  0x80 <= c <= 0x7FF ->
  decode_utf8 (Z.lor 0xC0 (Z.shiftr c 6) :: Z.lor 0x80 (Z.land c 0x3F) :: rest)
  = (s <- decode_utf8 rest ;; Ok (c :: s)).
Proof.
  intros Hc.
  rewrite cont_byte, Z.shiftr_div_pow2 by lia.
  change 0xC0 with (6 * 2 ^ 5); change (2 ^ 6) with 64.
  rewrite lor_high by (change (2 ^ 5) with 32; Z.to_euclidean_division_equations; lia).
  change (6 * 2 ^ 5) with 192.
  cbn [decode_utf8].
  rewrite (between_false 0 127), (between_true 0xC2 0xDF)
    by (Z.to_euclidean_division_equations; lia).
  unfold is_cont; rewrite (between_true 0x80 0xBF)
    by (Z.to_euclidean_division_equations; lia).
  replace (code_point2 (192 + c / 64) (128 + c mod 64)) with c; [reflexivity|].
  unfold code_point2; rewrite cont_bits_mod.
  change 0x1F with (2 ^ 5 - 1); rewrite land_low by lia.
  rewrite lor_shiftl_add by (try lia; apply Z.mod_pos_bound; lia).
  change (2 ^ 5) with 32; change (2 ^ 6) with 64.
  Z.to_euclidean_division_equations; lia.
Qed.

Lemma decode_three (c : Z) (rest : bytes) :
  0x800 <= c <= 0xFFFF -> ~ 0xD800 <= c <= 0xDFFF ->
  decode_utf8 (Z.lor 0xE0 (Z.shiftr c 12)
               :: Z.lor 0x80 (Z.land (Z.shiftr c 6) 0x3F)
               :: Z.lor 0x80 (Z.land c 0x3F) :: rest)
  = (s <- decode_utf8 rest ;; Ok (c :: s)).
Proof.
  intros Hc Hs.
  rewrite !cont_byte, !Z.shiftr_div_pow2 by lia.
  change 0xE0 with (14 * 2 ^ 4); change (2 ^ 6) with 64; change (2 ^ 12) with 4096.
  rewrite lor_high by (change (2 ^ 4) with 16; Z.to_euclidean_division_equations; lia).
  change (14 * 2 ^ 4) with 224.
  cbn [decode_utf8].
  rewrite (between_false 0 127), (between_false 0xC2 0xDF), (between_true 0xE0 0xEF)
    by (Z.to_euclidean_division_equations; lia).
  unfold is_cont; rewrite (between_true 0x80 0xBF (128 + c mod 64))
    by (Z.to_euclidean_division_equations; lia).
  rewrite between_true
    by (destruct (Z.eqb_spec (224 + c / 4096) 0xE0),
                 (Z.eqb_spec (224 + c / 4096) 0xED);
        Z.to_euclidean_division_equations; lia).
  cbn [andb].
  replace (code_point3 _ _ _) with c; [reflexivity|].
  unfold code_point3; rewrite !cont_bits_mod.
  change 0x0F with (2 ^ 4 - 1); rewrite land_low by lia.
  rewrite (lor_shiftl_add ((128 + c / 64 mod 64) mod 64))
    by (try lia; apply Z.mod_pos_bound; lia).
  rewrite lor_shiftl_add
    by (change (2 ^ 6) with 64; change (2 ^ 12) with 4096;
        Z.to_euclidean_division_equations; lia).
  change (2 ^ 4) with 16; change (2 ^ 6) with 64; change (2 ^ 12) with 4096.
  Z.to_euclidean_division_equations; lia.
Qed.

Lemma decode_four (c : Z) (rest : bytes) :
  0x10000 <= c <= 0x10FFFF ->
  decode_utf8 (Z.lor 0xF0 (Z.shiftr c 18)
               :: Z.lor 0x80 (Z.land (Z.shiftr c 12) 0x3F)
               :: Z.lor 0x80 (Z.land (Z.shiftr c 6) 0x3F)
               :: Z.lor 0x80 (Z.land c 0x3F) :: rest)
  = (s <- decode_utf8 rest ;; Ok (c :: s)).
Proof.
  intros Hc.
  rewrite !cont_byte, !Z.shiftr_div_pow2 by lia.
  change 0xF0 with (30 * 2 ^ 3); change (2 ^ 6) with 64;
    change (2 ^ 12) with 4096; change (2 ^ 18) with 262144.
  rewrite lor_high by (change (2 ^ 3) with 8; Z.to_euclidean_division_equations; lia).
  change (30 * 2 ^ 3) with 240.
  cbn [decode_utf8].
  rewrite (between_false 0 127), (between_false 0xC2 0xDF),
    (between_false 0xE0 0xEF), (between_true 0xF0 0xF4)
    by (Z.to_euclidean_division_equations; lia).
  unfold is_cont; rewrite (between_true 0x80 0xBF (128 + c mod 64)),
    (between_true 0x80 0xBF (128 + c / 64 mod 64))
    by (Z.to_euclidean_division_equations; lia).
  rewrite between_true
    by (destruct (Z.eqb_spec (240 + c / 262144) 0xF0),
                 (Z.eqb_spec (240 + c / 262144) 0xF4);
        Z.to_euclidean_division_equations; lia).
  cbn [andb].
  replace (code_point4 _ _ _ _) with c; [reflexivity|].
  unfold code_point4; rewrite !cont_bits_mod.
  change 0x07 with (2 ^ 3 - 1); rewrite land_low by lia.
  rewrite (lor_shiftl_add ((128 + c / 64 mod 64) mod 64))
    by (try lia; apply Z.mod_pos_bound; lia).
  rewrite (lor_shiftl_add ((128 + c / 4096 mod 64) mod 64))
    by (change (2 ^ 6) with 64; change (2 ^ 12) with 4096;
        Z.to_euclidean_division_equations; lia).
  rewrite lor_shiftl_add
    by (change (2 ^ 6) with 64; change (2 ^ 12) with 4096;
        change (2 ^ 18) with 262144;
        Z.to_euclidean_division_equations; lia).
  change (2 ^ 3) with 8; change (2 ^ 6) with 64; change (2 ^ 12) with 4096;
    change (2 ^ 18) with 262144.
  Z.to_euclidean_division_equations; lia.
Qed.

Lemma encode_char_utf8_decode (c : char) (bs rest : bytes) :
  encode_char_utf8 c = Some bs ->
  decode_utf8 (bs ++ rest) = (s <- decode_utf8 rest ;; Ok (c :: s)).
Proof.
  unfold encode_char_utf8.
  destruct (between 0x00 0x7F c) eqn:B1.
  { intros H; injection H as <-; cbn [app decode_utf8]; rewrite B1; reflexivity. }
  destruct (between 0x80 0x7FF c) eqn:B2.
  { intros H; injection H as <-; apply between_spec in B2.
    apply decode_two; exact B2. }
  destruct (between 0xD800 0xDFFF c) eqn:B3; [discriminate|].
  assert (Hs : ~ 0xD800 <= c <= 0xDFFF)
    by (intros Hs; apply between_spec in Hs; congruence).
  destruct (between 0x800 0xFFFF c) eqn:B4.
  { intros H; injection H as <-; apply between_spec in B4.
    apply decode_three; assumption. }
  destruct (between 0x10000 0x10FFFF c) eqn:B5; [|discriminate].
  intros H; injection H as <-; apply between_spec in B5.
  apply decode_four; exact B5.
Qed.

Lemma decode_encode_utf8 (text : str) :
  forall bs, encode_utf8 text = Ok bs -> decode_utf8 bs = Ok text.
Proof.
  induction text as [|c t IH]; intros bs H; cbn [encode_utf8] in H.
  - injection H as <-; reflexivity.
  - destruct (encode_char_utf8 c) as [cs|] eqn:C; [|discriminate].
    destruct (encode_utf8 t) as [rest|] eqn:T; [|discriminate].
    injection H as <-.
    rewrite (encode_char_utf8_decode c cs rest C), (IH rest eq_refl); reflexivity.
Qed.

Lemma encode_char_utf8_bytes (c : char) (bs : bytes) :
  encode_char_utf8 c = Some bs -> Forall (fun b => 0 <= b <= 0xFF) bs.
Proof.
  assert (H : match encode_char_utf8 c with
              | Some cs => Forall (fun b => 0 <= b <= 0xFF) cs
              | None => True
              end); [|intros E; rewrite E in H; exact H].
  unfold encode_char_utf8.
  repeat match goal with
         | |- match (if ?g then _ else _) with _ => _ end => destruct g eqn:?
         end; try exact I;
    repeat match goal with
           | E : between _ _ _ = true |- _ => apply between_spec in E
           end;
    rewrite ?cont_byte, ?Z.shiftr_div_pow2 by lia;
    change (2 ^ 6) with 64; change (2 ^ 12) with 4096;
    change (2 ^ 18) with 262144.
  - repeat constructor; lia.
  - change 0xC0 with (6 * 2 ^ 5).
    rewrite lor_high
      by (change (2 ^ 5) with 32; Z.to_euclidean_division_equations; lia).
    repeat constructor; Z.to_euclidean_division_equations; lia.
  - change 0xE0 with (14 * 2 ^ 4).
    rewrite lor_high
      by (change (2 ^ 4) with 16; Z.to_euclidean_division_equations; lia).
    repeat constructor; Z.to_euclidean_division_equations; lia.
  - change 0xF0 with (30 * 2 ^ 3).
    rewrite lor_high
      by (change (2 ^ 3) with 8; Z.to_euclidean_division_equations; lia).
    repeat constructor; Z.to_euclidean_division_equations; lia.
Qed.

Lemma encode_utf8_bytes (text : str) :
  forall bs, encode_utf8 text = Ok bs -> Forall (fun b => 0 <= b <= 0xFF) bs.
Proof.
  induction text as [|c t IH]; intros bs H; cbn [encode_utf8] in H.
  - injection H as <-; constructor.
  - destruct (encode_char_utf8 c) as [cs|] eqn:C; [|discriminate].
    destruct (encode_utf8 t) as [rest|] eqn:T; [|discriminate].
    injection H as <-.
    apply Forall_app; split;
      [exact (encode_char_utf8_bytes c cs C)|exact (IH rest eq_refl)].
Qed.

Lemma encode_latin1_bytes (bs : bytes) :
  Forall (fun b => 0 <= b <= 0xFF) bs -> encode_latin1 bs = Ok bs.
Proof.
  induction 1 as [|b t Hb _ IH]; [reflexivity|].
  cbn [encode_latin1].
  destruct (Z.leb_spec 0 b), (Z.leb_spec b 0xFF); try lia.
  cbn [andb]; rewrite IH; reflexivity.
Qed.

(** X1: both functions undo the mistake they are written for: when the
    UTF-8 bytes of a text have been read as Latin-1, they give the text
    back. *)
Theorem fix_mojibake_reverses_latin1 (text : str) (bs : bytes) :
  encode_utf8 text = Ok bs ->
  fix_mojibake (decode_latin1 bs) = Ok text /\
  fix_remaining_mojibake (decode_latin1 bs) = Ok text.
Proof.
  intros H.
  assert (R : redecode encode_latin1 (decode_latin1 bs) = Ok text).
  { unfold redecode, decode_latin1.
    rewrite (encode_latin1_bytes bs (encode_utf8_bytes text bs H)).
    apply decode_encode_utf8; exact H. }
  rewrite fix_mojibake_cases, fix_remaining_mojibake_cases, R; split; reflexivity.
Qed.

Lemma fix_mojibake_reverses_latin1_witness :
  encode_utf8 [0xE9; 0x1F9C0] = Ok [0xC3; 0xA9; 0xF0; 0x9F; 0xA7; 0x80] /\
  fix_mojibake (decode_latin1 [0xC3; 0xA9; 0xF0; 0x9F; 0xA7; 0x80])
  = Ok [0xE9; 0x1F9C0] /\
  fix_remaining_mojibake (decode_latin1 [0xC3; 0xA9; 0xF0; 0x9F; 0xA7; 0x80])
  = Ok [0xE9; 0x1F9C0].
Proof.
  assert (E : encode_utf8 [0xE9; 0x1F9C0]
              = Ok [0xC3; 0xA9; 0xF0; 0x9F; 0xA7; 0x80]) by reflexivity.
  exact (conj E (fix_mojibake_reverses_latin1 _ _ E)).
Defined.

(** ** The round trip through [cp1252] *)

Lemma cp1252_char_byte (b : Z) (c : char) :
  cp1252_char b = Some c -> cp1252_byte c = Some b.
Proof.
  unfold cp1252_char; intros H.
  repeat match type of H with
         | (if ?g then _ else _) = _ => destruct g eqn:?
         end; try discriminate; injection H as <-;
    repeat match goal with
           | E : (_ =? _) = true |- _ => apply Z.eqb_eq in E; subst
           end; try reflexivity;
    unfold cp1252_byte;
    repeat match goal with
           | E : between _ _ _ = _ |- _ => unfold between in E; rewrite E
           end; reflexivity.
Qed.

Lemma cp1252_char_low (b : Z) (c : char) :
  cp1252_char b = Some c -> c <= 0xFF -> c = b.
Proof.
  unfold cp1252_char; intros H Hc.
  repeat match type of H with
         | (if ?g then _ else _) = _ => destruct g eqn:?
         end; try discriminate; injection H as <-;
    try reflexivity; exfalso; lia.
Qed.

Lemma cp1252_byte_low (c : char) (b : Z) :
  cp1252_byte c = Some b -> c <= 0xFF -> b = c /\ 0 <= c.
Proof.
  unfold cp1252_byte; intros H Hc.
  repeat match type of H with
         | (if ?g then _ else _) = _ => destruct g eqn:?
         end; try discriminate; injection H as <-;
    repeat match goal with
           | E : (_ =? _) = true |- _ => apply Z.eqb_eq in E
           | E : _ && _ = true |- _ => apply andb_prop in E as [? ?]
           | E : (_ <=? _) = true |- _ => apply Z.leb_le in E
           end; try (split; [reflexivity|lia]); exfalso; lia.
Qed.

Lemma encode_decode_cp1252 (bs : bytes) :
  forall m, decode_cp1252 bs = Ok m -> encode_cp1252 m = Ok bs.
Proof.
  induction bs as [|b t IH]; intros m H; cbn [decode_cp1252] in H.
  - injection H as <-; reflexivity.
  - destruct (cp1252_char b) as [c|] eqn:C; [|discriminate].
    destruct (decode_cp1252 t) as [s|] eqn:T; [|discriminate].
    injection H as <-; cbn [encode_cp1252].
    rewrite (cp1252_char_byte b c C), (IH s eq_refl); reflexivity.
Qed.

Lemma decode_cp1252_latin1 (bs : bytes) :
  forall m bs', decode_cp1252 bs = Ok m -> encode_latin1 m = Ok bs' -> m = bs.
Proof.
  induction bs as [|b t IH]; intros m bs' H E; cbn [decode_cp1252] in H.
  - injection H as <-; reflexivity.
  - destruct (cp1252_char b) as [c|] eqn:C; [|discriminate].
    destruct (decode_cp1252 t) as [s|] eqn:T; [|discriminate].
    injection H as <-; cbn [encode_latin1] in E.
    destruct ((0 <=? c) && (c <=? 0xFF)) eqn:R; [|discriminate].
    destruct (encode_latin1 s) as [rest|] eqn:S; [|discriminate].
    apply andb_prop in R as [_ R]; apply Z.leb_le in R.
    f_equal; [apply (cp1252_char_low b c C R)|apply (IH s rest eq_refl S)].
Qed.

(** X2: the callback also undoes the reading of UTF-8 bytes as cp1252:
    when the UTF-8 bytes of a text decode as cp1252, the callback maps
    what they decode to back to the text. *)
Theorem fix_remaining_mojibake_reverses_cp1252 (text mojibake : str) (bs : bytes) :
  encode_utf8 text = Ok bs ->
  decode_cp1252 bs = Ok mojibake ->
  fix_remaining_mojibake mojibake = Ok text.
Proof.
  intros Hutf Hcp.
  pose proof (decode_encode_utf8 text bs Hutf) as Hback.
  rewrite fix_remaining_mojibake_cases; f_equal.
  destruct (redecode encode_latin1 mojibake) as [fixed|e] eqn:L.
  - unfold redecode, bind in L.
    destruct (encode_latin1 mojibake) as [bs'|] eqn:E; [|discriminate].
    pose proof (encode_latin1_same _ _ E); subst bs'.
    rewrite (decode_cp1252_latin1 bs mojibake mojibake Hcp E) in L.
    congruence.
  - unfold redecode.
    rewrite (encode_decode_cp1252 bs mojibake Hcp); cbn [bind].
    rewrite Hback; reflexivity.
Qed.

Lemma fix_remaining_mojibake_reverses_cp1252_witness :
  encode_utf8 [0x2019] = Ok [0xE2; 0x80; 0x99] /\
  decode_cp1252 [0xE2; 0x80; 0x99] = Ok [0xE2; 0x20AC; 0x2122] /\
  fix_remaining_mojibake [0xE2; 0x20AC; 0x2122] = Ok [0x2019].
Proof.
  assert (E : encode_utf8 [0x2019] = Ok [0xE2; 0x80; 0x99]) by reflexivity.
  assert (D : decode_cp1252 [0xE2; 0x80; 0x99] = Ok [0xE2; 0x20AC; 0x2122])
    by reflexivity.
  exact (conj E (conj D (fix_remaining_mojibake_reverses_cp1252 _ _ _ E D))).
Defined.

Lemma encode_cp1252_low (m : str) :
  forall bs, Forall (fun c => c <= 0xFF) m -> encode_cp1252 m = Ok bs ->
             bs = m /\ encode_latin1 m = Ok m.
Proof.
  induction m as [|c t IH]; intros bs Hm H; cbn [encode_cp1252] in H.
  - injection H as <-; split; reflexivity.
  - destruct (cp1252_byte c) as [b|] eqn:B; [|discriminate].
    destruct (encode_cp1252 t) as [rest|] eqn:T; [|discriminate].
    injection H as <-.
    apply Forall_cons_iff in Hm as [Hc Ht].
    destruct (cp1252_byte_low c b B Hc) as [-> H0].
    destruct (IH rest Ht eq_refl) as [-> E].
    split; [reflexivity|].
    cbn [encode_latin1].
    destruct (Z.leb_spec 0 c), (Z.leb_spec c 0xFF); try lia.
    cbn [andb]; rewrite E; reflexivity.
Qed.

(** X3: the second attempt of the callback matters only for fragments with
    a character above U+00FF: on any other text the callback returns what
    [fix_mojibake] returns. *)
Theorem fix_remaining_mojibake_below_256 (mojibake : str) :
  Forall (fun c => c <= 0xFF) mojibake ->
  fix_remaining_mojibake mojibake = fix_mojibake mojibake.
Proof.
  intros Hm.
  rewrite fix_remaining_mojibake_cases, fix_mojibake_cases; f_equal.
  destruct (redecode encode_latin1 mojibake) as [fixed|e] eqn:L; [reflexivity|].
  destruct (redecode encode_cp1252 mojibake) as [fixed|e'] eqn:C; [|reflexivity].
  exfalso; unfold redecode in *.
  destruct (encode_cp1252 mojibake) as [bs|] eqn:E; [|discriminate].
  destruct (encode_cp1252_low mojibake bs Hm E) as [-> E'].
  rewrite E' in L; cbn [bind] in *; congruence.
Qed.

Lemma fix_remaining_mojibake_below_256_witness :
  Forall (fun c => c <= 0xFF) [0xC3; 0xA9; 0x81] /\
  fix_remaining_mojibake [0xC3; 0xA9; 0x81] = fix_mojibake [0xC3; 0xA9; 0x81].
Proof.
  assert (H : Forall (fun c => c <= 0xFF) [0xC3; 0xA9; 0x81])
    by (repeat constructor; lia).
  exact (conj H (fix_remaining_mojibake_below_256 _ H)).
Defined.

(** ** What the decoder returns *)

(** Induction over the sequences the decoder accepts. *)

Lemma decode_utf8_cases (P : bytes -> str -> Prop) :
  P [] [] ->
  (forall b t s, between 0x00 0x7F b = true ->
                 P t s -> P (b :: t) (b :: s)) ->
  (forall b c1 t s,
      between 0xC2 0xDF b = true -> is_cont c1 = true ->
      P t s -> P (b :: c1 :: t) (code_point2 b c1 :: s)) ->
  (forall b c1 c2 t s,
      between 0xE0 0xEF b = true ->
      between (if b =? 0xE0 then 0xA0 else 0x80)
              (if b =? 0xED then 0x9F else 0xBF) c1
      && is_cont c2 = true ->
      P t s -> P (b :: c1 :: c2 :: t) (code_point3 b c1 c2 :: s)) ->
  (forall b c1 c2 c3 t s,
      between 0xF0 0xF4 b = true ->
      between (if b =? 0xF0 then 0x90 else 0x80)
              (if b =? 0xF4 then 0x8F else 0xBF) c1
      && is_cont c2 && is_cont c3 = true ->
      P t s -> P (b :: c1 :: c2 :: c3 :: t) (code_point4 b c1 c2 c3 :: s)) ->
  forall bs s, decode_utf8 bs = Ok s -> P bs s.
Proof.
  intros H0 H1 H2 H3 H4 bs.
  remember (length bs) as n eqn:Hn.
  assert (Hlen : (length bs <= n)%nat) by lia; clear Hn.
  revert bs Hlen; induction n as [|n IH]; intros bs Hlen s H.
  { destruct bs; [injection H as <-; exact H0|simpl in Hlen; lia]. }
  destruct bs as [|b t]; [injection H as <-; exact H0|].
  simpl in Hlen; cbn [decode_utf8] in H.
  destruct (between 0x00 0x7F b) eqn:B1.
  { destruct (decode_utf8 t) as [s'|] eqn:D; [|discriminate].
    injection H as <-; apply H1; [exact B1|apply IH; [lia|exact D]]. }
  destruct (between 0xC2 0xDF b) eqn:B2.
  { destruct t as [|c1 t1]; [discriminate|].
    destruct (is_cont c1) eqn:C1; [|discriminate].
    destruct (decode_utf8 t1) as [s'|] eqn:D; [|discriminate].
    injection H as <-; apply H2; try assumption.
    apply IH; [simpl in Hlen; lia|exact D]. }
  destruct (between 0xE0 0xEF b) eqn:B3.
  { destruct t as [|c1 [|c2 t2]]; try discriminate.
    match type of H with (if ?g then _ else _) = _ => destruct g eqn:G end;
      [|discriminate].
    destruct (decode_utf8 t2) as [s'|] eqn:D; [|discriminate].
    injection H as <-; apply H3; try assumption.
    apply IH; [simpl in Hlen; lia|exact D]. }
  destruct (between 0xF0 0xF4 b) eqn:B4; [|discriminate].
  destruct t as [|c1 [|c2 [|c3 t3]]]; try discriminate.
  match type of H with (if ?g then _ else _) = _ => destruct g eqn:G end;
    [|discriminate].
  destruct (decode_utf8 t3) as [s'|] eqn:D; [|discriminate].
  injection H as <-; apply H4; try assumption.
  apply IH; [simpl in Hlen; lia|exact D].
Qed.

Lemma decode_utf8_length (bs : bytes) (s : str) :
  decode_utf8 bs = Ok s -> (length s <= length bs)%nat.
Proof.
  revert bs s; apply decode_utf8_cases; intros; simpl; lia.
Qed.

Lemma code_point2_range (b c1 : Z) :
  between 0xC2 0xDF b = true -> is_cont c1 = true ->
  0x80 <= code_point2 b c1 <= 0x7FF.
Proof.
  unfold code_point2, is_cont; rewrite !between_spec, cont_bits_mod.
  intros Hb Hc.
  change 0x1F with (2 ^ 5 - 1); rewrite land_low by lia.
  rewrite lor_shiftl_add by (try lia; apply Z.mod_pos_bound; lia).
  change (2 ^ 5) with 32; change (2 ^ 6) with 64.
  Z.to_euclidean_division_equations; lia.
Qed.

Lemma code_point3_range (b c1 c2 : Z) :
  between 0xE0 0xEF b = true ->
  between (if b =? 0xE0 then 0xA0 else 0x80) (if b =? 0xED then 0x9F else 0xBF) c1
  && is_cont c2 = true ->
  0x800 <= code_point3 b c1 c2 <= 0xD7FF \/ 0xE000 <= code_point3 b c1 c2 <= 0xFFFF.
Proof.
  unfold code_point3, is_cont; rewrite andb_true_iff, !between_spec, !cont_bits_mod.
  intros Hb [Hc1 Hc2].
  change 0x0F with (2 ^ 4 - 1); rewrite land_low by lia.
  rewrite (lor_shiftl_add (c1 mod 64)) by (try lia; apply Z.mod_pos_bound; lia).
  change (2 ^ 6) with 64.
  assert (0 <= c1 mod 64 < 64 /\ 0 <= c2 mod 64 < 64) as [B1 B2]
    by (split; apply Z.mod_pos_bound; lia).
  rewrite lor_shiftl_add by (change (2 ^ 12) with 4096; lia).
  change (2 ^ 4) with 16; change (2 ^ 12) with 4096.
  destruct (Z.eqb_spec b 0xE0), (Z.eqb_spec b 0xED);
    Z.to_euclidean_division_equations; lia.
Qed.

Lemma code_point4_range (b c1 c2 c3 : Z) :
  between 0xF0 0xF4 b = true ->
  between (if b =? 0xF0 then 0x90 else 0x80) (if b =? 0xF4 then 0x8F else 0xBF) c1
  && is_cont c2 && is_cont c3 = true ->
  0x10000 <= code_point4 b c1 c2 c3 <= 0x10FFFF.
Proof.
  unfold code_point4, is_cont; rewrite !andb_true_iff, !between_spec, !cont_bits_mod.
  intros Hb [[Hc1 Hc2] Hc3].
  change 0x07 with (2 ^ 3 - 1); rewrite land_low by lia.
  assert (0 <= c1 mod 64 < 64 /\ 0 <= c2 mod 64 < 64 /\ 0 <= c3 mod 64 < 64)
    as (B1 & B2 & B3) by (repeat split; apply Z.mod_pos_bound; lia).
  rewrite (lor_shiftl_add (c2 mod 64)) by (change (2 ^ 6) with 64; lia).
  change (2 ^ 6) with 64.
  rewrite (lor_shiftl_add (c1 mod 64)) by (change (2 ^ 12) with 4096; lia).
  change (2 ^ 12) with 4096.
  rewrite lor_shiftl_add by (change (2 ^ 18) with 262144; lia).
  change (2 ^ 3) with 8; change (2 ^ 18) with 262144.
  destruct (Z.eqb_spec b 0xF0), (Z.eqb_spec b 0xF4);
    Z.to_euclidean_division_equations; lia.
Qed.

Lemma is_scalar_spec (c : char) :
  is_scalar c = true <-> 0 <= c <= 0xD7FF \/ 0xE000 <= c <= 0x10FFFF.
Proof.
  unfold is_scalar; rewrite orb_true_iff, !between_spec; tauto.
Qed.

Lemma decode_utf8_scalar (bs : bytes) (s : str) :
  decode_utf8 bs = Ok s -> forallb is_scalar s = true.
Proof.
  revert bs s; apply decode_utf8_cases; [reflexivity|..]; intros;
    cbn [forallb]; apply andb_true_intro; (split; [|assumption]);
    apply is_scalar_spec.
  - apply between_spec in H; lia.
  - pose proof (code_point2_range b c1 H H0); lia.
  - pose proof (code_point3_range b c1 c2 H H0); lia.
  - pose proof (code_point4_range b c1 c2 c3 H H0); lia.
Qed.

Lemma is_ascii_spec (c : char) : is_ascii c = true <-> 0 <= c <= 0x7F.
Proof.
  apply between_spec.
Qed.

Lemma is_ascii_false (c : char) : 0x7F < c -> is_ascii c = false.
Proof.
  intros H; apply between_false; right; exact H.
Qed.

Lemma decode_utf8_ascii (bs : bytes) (s : str) :
  decode_utf8 bs = Ok s -> filter is_ascii s = filter is_ascii bs.
Proof.
  revert bs s; apply decode_utf8_cases; [reflexivity|..]; intros;
    cbn [filter].
  - destruct (is_ascii b); [f_equal|]; assumption.
  - pose proof (code_point2_range b c1 H H0).
    unfold is_cont in H0; apply between_spec in H, H0.
    rewrite !is_ascii_false by lia; assumption.
  - pose proof (code_point3_range b c1 c2 H H0).
    apply andb_prop in H0 as [G1 G2].
    unfold is_cont in G2; apply between_spec in H, G1, G2.
    rewrite !is_ascii_false
      by (try lia; destruct (Z.eqb_spec b 0xE0); lia); assumption.
  - pose proof (code_point4_range b c1 c2 c3 H H0).
    apply andb_prop in H0 as [G G3]; apply andb_prop in G as [G1 G2].
    unfold is_cont in G2, G3; apply between_spec in H, G1, G2, G3.
    rewrite !is_ascii_false
      by (try lia; destruct (Z.eqb_spec b 0xF0); lia); assumption.
Qed.

Section Projection.

Variable P : char -> bool.

Lemma replace_filter_bounded (old new : str) :
  old <> [] -> filter P new = filter P old ->
  forall n s, (length s <= n)%nat ->
              filter P (replace old new s) = filter P s.
Proof.
  intros Hne HP; induction n as [|n IH]; intros s Hlen.
  - destruct s; [|simpl in Hlen; lia].
    rewrite replace_nil by exact Hne; reflexivity.
  - destruct s as [|c s]; [rewrite replace_nil by exact Hne; reflexivity|].
    simpl in Hlen.
    destruct (starts_with old (c :: s)) eqn:Hsw.
    + pose proof (starts_with_split _ _ Hsw) as E.
      assert (Hshort : (length (skipn (length old) (c :: s)) <= n)%nat).
      { rewrite length_skipn; destruct old; [congruence|simpl; lia]. }
      remember (skipn (length old) (c :: s)) as rest eqn:Hrest.
      rewrite E, replace_here, !filter_app by exact Hne.
      rewrite (IH _ Hshort), HP; reflexivity.
    + rewrite replace_next by assumption.
      cbn [filter]; rewrite (IH s ltac:(lia)); reflexivity.
Qed.

Lemma replace_filter (old new s : str) :
  filter P new = filter P old ->
  filter P (replace old new s) = filter P s.
Proof.
  intros HP; destruct old as [|a old].
  - cbn [filter] in HP; unfold replace; rewrite filter_app, HP; cbn [app].
    induction s as [|c s IH]; [reflexivity|].
    cbn [flat_map app filter]; rewrite filter_app, HP, IH; reflexivity.
  - apply (replace_filter_bounded (a :: old) new) with (n := length s);
      [discriminate|exact HP|lia].
Qed.

Lemma substitution_pass_filter (table : list (str * str)) :
  Forall (fun entry => filter P (snd entry) = filter P (fst entry)) table ->
  forall content, filter P (substitution_pass table content) = filter P content.
Proof.
  unfold substitution_pass.
  induction 1 as [|entry table Hentry _ IH]; intros content; [reflexivity|].
  cbn [fold_left]; rewrite IH; apply replace_filter; exact Hentry.
Qed.

Variable repl : str -> result str.
Hypothesis repl_filter : forall m r, repl m = Ok r -> filter P r = filter P m.

Lemma sub_from_filter (s : str) :
  forall skip out, sub_from repl skip s = Ok out ->
                   filter P out = filter P (skipn skip s).
Proof.
  induction s as [|c s IH]; intros skip out H.
  - injection H as <-; destruct skip; reflexivity.
  - cbn [sub_from] in H; destruct skip as [|k]; [|apply IH; exact H].
    cbn [skipn].
    destruct (pattern_match (c :: s)) as [m|] eqn:M.
    + apply pattern_match_Some in M as (_ & -> & _).
      destruct (repl (c :: take_run 20 s)) as [r|] eqn:R; [|discriminate].
      cbn [bind length Nat.pred] in H.
      destruct (sub_from repl (length (take_run 20 s)) s) as [rest|] eqn:S;
        [|discriminate].
      injection H as <-.
      apply repl_filter in R; apply IH in S.
      rewrite filter_app, R, S, <- filter_app.
      change ((c :: take_run 20 s) ++ skipn (length (take_run 20 s)) s)
        with (c :: (take_run 20 s ++ skipn (length (take_run 20 s)) s)).
      rewrite <- take_run_prefix; reflexivity.
    + destruct (sub_from repl 0 s) as [rest|] eqn:S; [|discriminate].
      injection H as <-; apply IH in S; cbn [skipn] in S.
      cbn [filter]; rewrite S; reflexivity.
Qed.

End Projection.

Lemma filter_filter_implied (P Q : char -> bool) (s : str) :
  (forall c, P c = true -> Q c = true) ->
  filter P (filter Q s) = filter P s.
Proof.
  intros H; induction s as [|c s IH]; [reflexivity|].
  cbn [filter]; destruct (Q c) eqn:Qc.
  - cbn [filter]; rewrite IH; reflexivity.
  - destruct (P c) eqn:Pc; [rewrite (H c Pc) in Qc; discriminate|exact IH].
Qed.

Lemma encode_cp1252_length (m : str) :
  forall bs, encode_cp1252 m = Ok bs -> length bs = length m.
Proof.
  induction m as [|c t IH]; intros bs H; cbn [encode_cp1252] in H.
  - injection H as <-; reflexivity.
  - destruct (cp1252_byte c) as [b|]; [|discriminate].
    destruct (encode_cp1252 t) as [rest|]; [|discriminate].
    injection H as <-; simpl; f_equal; apply IH; reflexivity.
Qed.

Lemma cp1252_byte_ascii (c : char) (b : Z) (rest rest' : list Z) :
  cp1252_byte c = Some b ->
  filter is_ascii rest = filter is_ascii rest' ->
  filter is_ascii (b :: rest) = filter is_ascii (c :: rest').
Proof.
  unfold cp1252_byte; intros H H0.
  repeat match type of H with
         | (if ?g then _ else _) = _ => destruct g eqn:?
         end; try discriminate; injection H as <-;
    repeat match goal with
           | E : (_ =? _) = true |- _ => apply Z.eqb_eq in E; subst
           end; simpl; rewrite H0; reflexivity.
Qed.

Lemma encode_cp1252_ascii (m : str) :
  forall bs, encode_cp1252 m = Ok bs -> filter is_ascii bs = filter is_ascii m.
Proof.
  induction m as [|c t IH]; intros bs H; cbn [encode_cp1252] in H.
  - injection H as <-; reflexivity.
  - destruct (cp1252_byte c) as [b|] eqn:B; [|discriminate].
    destruct (encode_cp1252 t) as [rest|]; [|discriminate].
    injection H as <-.
    apply (cp1252_byte_ascii c b rest t B), IH; reflexivity.
Qed.

(** What the callback returns: the fragment itself or a decoded text. *)
Lemma fix_remaining_mojibake_result (m r : str) :
  fix_remaining_mojibake m = Ok r ->
  r = m \/
  exists bs, decode_utf8 bs = Ok r /\
             (bs = m \/ encode_cp1252 m = Ok bs).
Proof.
  rewrite fix_remaining_mojibake_cases; intros H; injection H as <-.
  unfold redecode, bind.
  destruct (encode_latin1 m) as [bs|] eqn:L.
  - apply encode_latin1_same in L; subst bs.
    destruct (decode_utf8 m) as [s|] eqn:D; [right; exists m; tauto|].
    destruct (encode_cp1252 m) as [bs|] eqn:C; [|left; reflexivity].
    destruct (decode_utf8 bs) as [s|] eqn:D'; [right; exists bs; tauto|].
    left; reflexivity.
  - destruct (encode_cp1252 m) as [bs|] eqn:C; [|left; reflexivity].
    destruct (decode_utf8 bs) as [s|] eqn:D'; [right; exists bs; tauto|].
    left; reflexivity.
Qed.

Lemma fix_remaining_mojibake_length (m r : str) :
  fix_remaining_mojibake m = Ok r -> (length r <= length m)%nat.
Proof.
  intros H; apply fix_remaining_mojibake_result in H
    as [->|(bs & D & [->|C])]; [lia| |].
  - apply decode_utf8_length; exact D.
  - apply decode_utf8_length in D; apply encode_cp1252_length in C; lia.
Qed.

Lemma fix_remaining_mojibake_ascii (m r : str) :
  fix_remaining_mojibake m = Ok r -> filter is_ascii r = filter is_ascii m.
Proof.
  intros H; apply fix_remaining_mojibake_result in H
    as [->|(bs & D & [->|C])]; [reflexivity| |].
  - apply decode_utf8_ascii; exact D.
  - rewrite (decode_utf8_ascii bs r D); apply encode_cp1252_ascii; exact C.
Qed.

(** X4: the whole transformation, and not only its substitution pass,
    never makes the text longer. *)
Theorem repair_length (text : str) :
  exists out, repair text = Ok out /\ (length out <= length text)%nat.
Proof.
  destruct (repair_with_total replacements text) as [out Hout].
  exists out; split; [exact Hout|].
  unfold repair_with, re_sub in Hout.
  apply (sub_from_measure _ (@length char) (@length_app char)
           fix_remaining_mojibake_length) in Hout.
  cbn [skipn] in Hout.
  etransitivity; [exact Hout|].
  apply (substitution_pass_measure (@length char) (@length_app char)).
  exact replacements_values_shorter.
Qed.

(** X5: the regular-expression pass leaves the ASCII characters of the
    text as they are, in their order: what the callback changes lies
    above U+007F. *)
Theorem re_sub_keeps_ascii (s : str) :
  exists out,
    re_sub fix_remaining_mojibake s = Ok out /\
    filter is_ascii out = filter is_ascii s.
Proof.
  destruct (sub_from_total _ fix_remaining_mojibake_total s 0) as [out Hout].
  exists out; split; [exact Hout|].
  apply (sub_from_filter is_ascii _ fix_remaining_mojibake_ascii s 0 out Hout).
Qed.

Lemma replacements_markup_free :
  Forall (fun entry => filter is_markup (snd entry) = filter is_markup (fst entry))
         replacements.
Proof.
  apply (Forall_impl _ (P := fun entry : str * str =>
           (if list_eq_dec Z.eq_dec (filter is_markup (snd entry))
                           (filter is_markup (fst entry))
            then true else false) = true)).
  - intros entry H.
    destruct (list_eq_dec Z.eq_dec (filter is_markup (snd entry))
                          (filter is_markup (fst entry))); [assumption|discriminate].
  - apply forallb_Forall; vm_compute; reflexivity.
Qed.

Lemma fix_remaining_mojibake_markup (m r : str) :
  fix_remaining_mojibake m = Ok r -> filter is_markup r = filter is_markup m.
Proof.
  intros H; apply fix_remaining_mojibake_ascii in H.
  assert (Himp : forall c, is_markup c = true -> is_ascii c = true).
  { intros c Hc; unfold is_markup in Hc.
    apply andb_prop in Hc as [Hc _]; apply andb_prop in Hc as [Hc _]; exact Hc. }
  rewrite <- (filter_filter_implied is_markup is_ascii r Himp), H.
  apply filter_filter_implied; exact Himp.
Qed.

(** X6: the transformation neither adds, removes nor reorders ASCII
    characters other than spaces and quotation marks; the angle brackets
    and the names of the markup stay as they are. *)
Theorem repair_keeps_markup (text : str) :
  exists out,
    repair text = Ok out /\ filter is_markup out = filter is_markup text.
Proof.
  destruct (repair_with_total replacements text) as [out Hout].
  exists out; split; [exact Hout|].
  unfold repair_with, re_sub in Hout.
  apply (sub_from_filter is_markup _ fix_remaining_mojibake_markup) in Hout.
  cbn [skipn] in Hout; rewrite Hout.
  apply substitution_pass_filter, replacements_markup_free.
Qed.

Lemma count_unencodable_app (a b : str) :
  count_unencodable (a ++ b) = (count_unencodable a + count_unencodable b)%nat.
Proof.
  unfold count_unencodable; rewrite filter_app, length_app; reflexivity.
Qed.

Lemma count_unencodable_zero (s : str) :
  count_unencodable s = 0%nat <-> forallb is_scalar s = true.
Proof.
  unfold count_unencodable; induction s as [|c s IH]; [tauto|].
  cbn [filter forallb]; destruct (is_scalar c); cbn [negb andb length];
    [exact IH|split; [lia|discriminate]].
Qed.

Lemma fix_remaining_mojibake_unencodable (m r : str) :
  fix_remaining_mojibake m = Ok r ->
  (count_unencodable r <= count_unencodable m)%nat.
Proof.
  intros H; apply fix_remaining_mojibake_result in H
    as [->|(bs & D & _)]; [lia|].
  apply decode_utf8_scalar, count_unencodable_zero in D; lia.
Qed.

Lemma replacements_values_scalar :
  Forall (fun entry =>
            (count_unencodable (snd entry) <= count_unencodable (fst entry))%nat)
         replacements.
Proof.
  apply (Forall_impl _ (P := fun entry : str * str =>
           Nat.leb (count_unencodable (snd entry))
                   (count_unencodable (fst entry)) = true)).
  - intros entry H; apply Nat.leb_le; exact H.
  - apply forallb_Forall; vm_compute; reflexivity.
Qed.

Lemma encode_utf8_scalar (text : str) :
  forallb is_scalar text = true -> exists bs, encode_utf8 text = Ok bs.
Proof.
  induction text as [|c t IH]; [exists []; reflexivity|].
  cbn [forallb encode_utf8]; intros H; apply andb_prop in H as [Hc Ht].
  destruct (IH Ht) as [rest ->].
  assert (Hsome : encode_char_utf8 c <> None).
  { apply is_scalar_spec in Hc; unfold encode_char_utf8.
    repeat match goal with
           | |- (if ?g then _ else _) <> _ => destruct g eqn:?
           end; try discriminate;
      repeat match goal with
             | E : between _ _ _ = true |- _ => apply between_spec in E
             | E : between _ _ _ = false |- _ => apply between_false_inv in E
             end; lia. }
  destruct (encode_char_utf8 c) as [cs|]; [|congruence].
  eexists; reflexivity.
Qed.

(** X7: when every character of the text is a Unicode scalar value (no
    surrogate), so is every character of the repaired text: its encoding
    as UTF-8, the encoding the script writes with, does not raise, and
    the bytes decode to the repaired text again. *)
Theorem repair_stays_encodable (text : str) :
  forallb is_scalar text = true ->
  exists out bs,
    repair text = Ok out /\ forallb is_scalar out = true /\
    encode_utf8 out = Ok bs /\ decode_utf8 bs = Ok out.
Proof.
  intros Htext.
  destruct (repair_with_total replacements text) as [out Hout].
  assert (Hvalid : forallb is_scalar out = true).
  { apply count_unencodable_zero.
    unfold repair_with, re_sub in Hout.
    apply (sub_from_measure _ count_unencodable count_unencodable_app
             fix_remaining_mojibake_unencodable) in Hout.
    cbn [skipn] in Hout.
    pose proof (substitution_pass_measure count_unencodable count_unencodable_app
                  replacements replacements_values_scalar text) as Hpass.
    apply count_unencodable_zero in Htext; lia. }
  destruct (encode_utf8_scalar out Hvalid) as [bs Hbs].
  exists out, bs; repeat split; try assumption.
  apply decode_encode_utf8; exact Hbs.
Qed.

Lemma repair_stays_encodable_witness :
  forallb is_scalar scenario_1 = true /\
  exists out bs,
    repair scenario_1 = Ok out /\ forallb is_scalar out = true /\
    encode_utf8 out = Ok bs /\ decode_utf8 bs = Ok out.
Proof.
  assert (H : forallb is_scalar scenario_1 = true) by reflexivity.
  exact (conj H (repair_stays_encodable _ H)).
Defined.

(** ** The fragments handed to the callback *)

Lemma take_run_spec (n : nat) (s : str) :
  (length (take_run n s) <= n)%nat /\
  forallb in_class (take_run n s) = true /\
  (length (take_run n s) = n \/
   skipn (length (take_run n s)) s = [] \/
   exists x rest, skipn (length (take_run n s)) s = x :: rest /\
                  in_class x = false).
Proof.
  revert s; induction n as [|n IH]; intros s.
  - destruct s; cbn [take_run length forallb]; repeat split; try lia; auto.
  - destruct s as [|c s]; cbn [take_run].
    + cbn [length forallb skipn]; repeat split; try lia; auto.
    + destruct (in_class c) eqn:C.
      * destruct (IH s) as (Hlen & Hall & Hend).
        cbn [length forallb skipn]; rewrite C, Hall; repeat split; try lia.
        destruct Hend as [Hend|Hend]; [left; lia|right; exact Hend].
      * cbn [length forallb skipn]; repeat split; try lia.
        right; right; exists c, s; split; [reflexivity|exact C].
Qed.

(** X8: a fragment handed to the callback is the marker followed by one
    to twenty characters that are neither white space nor angle brackets,
    and it is as long as it can be: it has twenty such characters, or the
    text ends after it, or the next character is white space or an angle
    bracket. *)
Theorem pattern_match_fragment (s m : str) :
  pattern_match s = Some m ->
  exists run rest,
    m = marker :: run /\ s = m ++ rest /\
    (1 <= length run <= 20)%nat /\
    forallb in_class run = true /\
    (length run = 20%nat \/ rest = [] \/
     exists x rest', rest = x :: rest' /\ in_class x = false).
Proof.
  destruct s as [|c t]; [discriminate|]; intros H.
  apply pattern_match_Some in H as (-> & -> & Hne).
  destruct (take_run_spec 20 t) as (Hlen & Hall & Hend).
  exists (take_run 20 t), (skipn (length (take_run 20 t)) t).
  repeat split; try assumption.
  - cbn [app]; f_equal; apply take_run_prefix.
  - destruct (take_run 20 t); [congruence|simpl; lia].
Qed.

Lemma pattern_match_fragment_witness :
  pattern_match [0xC3; 0xA9; 0x20; 0x41] = Some [0xC3; 0xA9] /\
  exists run rest,
    [0xC3; 0xA9] = marker :: run /\
    [0xC3; 0xA9; 0x20; 0x41] = [0xC3; 0xA9] ++ rest /\
    (1 <= length run <= 20)%nat /\
    forallb in_class run = true /\
    (length run = 20%nat \/ rest = [] \/
     exists x rest', rest = x :: rest' /\ in_class x = false).
Proof.
  assert (E : pattern_match [0xC3; 0xA9; 0x20; 0x41] = Some [0xC3; 0xA9])
    by reflexivity.
  exact (conj E (pattern_match_fragment _ _ E)).
Defined.

Lemma take_run_stops (n : nat) (t : str) (x : char) (b : str) :
  in_class x = false -> take_run n (t ++ x :: b) = take_run n t.
Proof.
  intros Hx; revert t; induction n as [|n IH]; intros [|c t]; cbn [take_run app];
    try reflexivity.
  - rewrite Hx; reflexivity.
  - destruct (in_class c); [f_equal; apply IH|reflexivity].
Qed.

Lemma take_run_length (n : nat) (t : str) :
  (length (take_run n t) <= length t)%nat.
Proof.
  revert t; induction n as [|n IH]; intros [|c t]; cbn [take_run length]; try lia.
  destruct (in_class c); cbn [length]; [specialize (IH t)|]; lia.
Qed.

Lemma in_class_marker : in_class marker = true.
Proof.
  reflexivity.
Qed.

Section Split.

Variable repl : str -> result str.

Lemma sub_from_split (x : char) (b : str) :
  in_class x = false ->
  forall a skip,
    (skip <= length a)%nat ->
    sub_from repl skip (a ++ x :: b)
    = (ra <- sub_from repl skip a ;;
       rb <- sub_from repl 0 b ;; Ok (ra ++ x :: rb)).
Proof.
  intros Hx.
  assert (Hxm : (x =? marker) = false).
  { destruct (Z.eqb_spec x marker) as [->|]; [|reflexivity].
    rewrite in_class_marker in Hx; discriminate. }
  induction a as [|c t IH]; intros skip Hskip.
  - destruct skip; [|simpl in Hskip; lia].
    cbn [app sub_from pattern_match bind]; rewrite Hxm; reflexivity.
  - cbn [app length] in *; cbn [sub_from].
    destruct skip as [|k]; [|apply IH; lia].
    assert (Hpm : pattern_match (c :: t ++ x :: b) = pattern_match (c :: t))
      by (unfold pattern_match; rewrite (take_run_stops 20 t x b Hx); reflexivity).
    rewrite Hpm.
    destruct (pattern_match (c :: t)) as [m|] eqn:M.
    + apply pattern_match_Some in M as (_ & -> & _).
      cbn [length Nat.pred].
      rewrite IH by apply take_run_length.
      destruct (repl (c :: take_run 20 t)) as [r|]; [|reflexivity].
      cbn [bind].
      destruct (sub_from repl (length (take_run 20 t)) t) as [rest|];
        [|reflexivity].
      cbn [bind].
      destruct (sub_from repl 0 b) as [rb|]; [|reflexivity].
      cbn [bind]; rewrite <- app_assoc; reflexivity.
    + rewrite IH by lia.
      destruct (sub_from repl 0 t) as [rest|]; [|reflexivity].
      cbn [bind].
      destruct (sub_from repl 0 b) as [rb|]; reflexivity.
Qed.

(** X9: the regular-expression pass works on each stretch between white
    space and angle brackets separately: around such a character the text
    can be cut, the two parts processed one after the other, and the
    results put together. *)
Theorem re_sub_split (a b : str) (x : char) :
  in_class x = false ->
  re_sub repl (a ++ x :: b)
  = (ra <- re_sub repl a ;; rb <- re_sub repl b ;; Ok (ra ++ x :: rb)).
Proof.
  intros Hx; apply sub_from_split; [exact Hx|lia].
Qed.

End Split.

Lemma re_sub_split_witness :
  in_class 0x20 = false /\
  re_sub fix_remaining_mojibake ([0xC3; 0xA9] ++ 0x20 :: [0xC3; 0x83; 0xC2; 0xA9])
  = (ra <- re_sub fix_remaining_mojibake [0xC3; 0xA9] ;;
     rb <- re_sub fix_remaining_mojibake [0xC3; 0x83; 0xC2; 0xA9] ;;
     Ok (ra ++ 0x20 :: rb)).
Proof.
  assert (H : in_class 0x20 = false) by reflexivity.
  exact (conj H (re_sub_split fix_remaining_mojibake _ _ _ H)).
Defined.

(** X10: the text left by the substitution pass holds no key of the table
    any more, whatever the order in which the keys were found, and a
    second pass over it changes nothing. *)
Theorem substitution_pass_settles (content : str) :
  (forall bad good, In (bad, good) replacements ->
                    ~ occurs bad (substitution_pass replacements content)) /\
  substitution_pass replacements (substitution_pass replacements content)
  = substitution_pass replacements content.
Proof.
  assert (H : forall bad good, In (bad, good) replacements ->
                ~ occurs bad (substitution_pass replacements content)).
  { apply (substitution_pass_clears replacements []);
      [apply incl_refl|intros bad good []]. }
  split; [exact H|apply substitution_pass_absent; exact H].
Qed.

(** ** The batch loop, continued *)

Lemma reported_app {error : Type} (l l' : list (event error)) :
  reported (l ++ l') = reported l + reported l'.
Proof.
  induction l as [|[f|f|[f b a|f e|t]] l IH]; cbn [app reported]; lia.
Qed.

Lemma reads_app {error : Type} (l l' : list (event error)) :
  reads (l ++ l') = reads l ++ reads l'.
Proof.
  induction l as [|[f|f|m] l IH]; cbn [app reads]; rewrite ?IH; reflexivity.
Qed.

Lemma writes_app {error : Type} (l l' : list (event error)) :
  writes (l ++ l') = writes l ++ writes l'.
Proof.
  induction l as [|[f|f|m] l IH]; cbn [app writes]; rewrite ?IH; reflexivity.
Qed.

Section FixAllFilesTrace.

Variable filesystem : Type.
Variable error : Type.
Variable is_Exception : error -> bool.
Variable read_text : str -> filesystem -> outcome error str.
Variable fix_text : str -> outcome error str.
Variable write_text : str -> str -> filesystem -> filesystem * option error.
Variable str_of : error -> str.
Variable stdout_extra : char -> bool.
Variable of_exn : exn -> error.

Let body :=
  try_body read_text fix_text write_text str_of stdout_extra of_exn.
Let loop :=
  for_loop is_Exception read_text fix_text write_text str_of stdout_extra
    of_exn.
Let report (filepath : str) (e : error) :=
  @print filesystem error str_of stdout_extra of_exn (ErrorWith filepath e).

(** What the body of the [try] does: it opens the file for reading, and
    either does nothing more (and then has not ended normally on a text
    with markers), or has read a text with markers, reports the two
    counts, adds their difference to the total and writes. *)
Lemma try_body_shape (filepath : str) (st : state filesystem error) :
  exists l,
    trace (fst (body filepath st)) = trace st ++ OpenRead filepath :: l /\
    ((l = [] /\
      fs (fst (body filepath st)) = fs st /\
      total_fixed (fst (body filepath st)) = total_fixed st /\
      (snd (body filepath st) = None ->
       exists content, read_text filepath (fs st) = Ok content /\
                       count_marker content = 0%nat))
     \/
     (exists content fixed_content,
         read_text filepath (fs st) = Ok content /\
         fix_text content = Ok fixed_content /\
         (0 < count_marker content)%nat /\
         l = [Print (Counts filepath (count_marker content)
                       (count_marker fixed_content));
              OpenWrite filepath] /\
         total_fixed (fst (body filepath st))
         = total_fixed st
           + (Z.of_nat (count_marker content)
              - Z.of_nat (count_marker fixed_content)) /\
         (fs (fst (body filepath st)), snd (body filepath st))
         = write_text filepath fixed_content (fs st))).
Proof.
  unfold body, try_body; cbn [emit fs trace total_fixed].
  destruct (read_text filepath (fs st)) as [content|e] eqn:R.
  2:{ exists []; split; [reflexivity|left]; cbn [fst snd fs total_fixed].
      repeat split; discriminate. }
  destruct (fix_text content) as [fixed_content|e] eqn:F.
  2:{ exists []; split; [reflexivity|left]; cbn [fst snd fs total_fixed].
      repeat split; discriminate. }
  destruct (0 <? count_marker content)%nat eqn:C.
  - unfold print.
    destruct (forallb (stdout_encodes stdout_extra)
                (text_of str_of
                   (Counts filepath (count_marker content)
                      (count_marker fixed_content)))).
    2:{ exists []; split; [reflexivity|left]; cbn [fst snd fs total_fixed].
        repeat split; discriminate. }
    cbn [emit fs trace total_fixed].
    destruct (write_text filepath fixed_content (fs st)) as [fs' raised] eqn:W.
    cbn [fst snd fs trace total_fixed].
    eexists; split; [rewrite <- !app_assoc; reflexivity|right].
    exists content, fixed_content; apply Nat.ltb_lt in C.
    repeat split; try assumption; try reflexivity.
    symmetry; exact W.
  - exists []; split; [reflexivity|left]; cbn [fst snd fs total_fixed].
    repeat split; intros _; exists content; split; [reflexivity|].
    apply Nat.ltb_ge in C; lia.
Qed.

(** One turn of the loop, as a function of what the body returned. *)
Lemma for_loop_cons (filepath : str) (rest : list str)
  (st : state filesystem error) :
  loop (filepath :: rest) st
  = match body filepath st with
    | (st', None) => loop rest st'
    | (st', Some e) =>
        if is_Exception e
        then match report filepath e st' with
             | (st'', None) => loop rest st''
             | (st'', Some e') => (st'', Some e')
             end
        else (st', Some e)
    end.
Proof.
  reflexivity.
Qed.

(** The handler either writes its line or raises and changes nothing. *)
Lemma report_cases (filepath : str) (e : error)
  (st : state filesystem error) :
  report filepath e st = (emit (Print (ErrorWith filepath e)) st, None) \/
  report filepath e st = (st, Some (of_exn UnicodeEncodeError)).
Proof.
  unfold report, print.
  destruct (forallb (stdout_encodes stdout_extra)
              (text_of str_of (ErrorWith filepath e))); [left|right];
    reflexivity.
Qed.

(** A batch in two parts: the second part is processed from the state
    the first part leaves, unless the first part was cut short. *)
Lemma for_loop_app (pre post : list str) :
  forall st,
    loop (pre ++ post) st
    = match loop pre st with
      | (st', None) => loop post st'
      | (st', Some e) => (st', Some e)
      end.
Proof.
  induction pre as [|filepath pre IH]; intros st; [reflexivity|].
  cbn [app]; rewrite !for_loop_cons.
  destruct (body filepath st) as [st' [e|]]; [|apply IH].
  destruct (is_Exception e); [|reflexivity].
  destruct (report filepath e st') as [st'' [e'|]]; [reflexivity|apply IH].
Qed.

Lemma for_loop_accounting (files_to_fix : list str) :
  forall st, exists l,
    trace (fst (loop files_to_fix st)) = trace st ++ l /\
    total_fixed (fst (loop files_to_fix st)) = total_fixed st + reported l.
Proof.
  induction files_to_fix as [|filepath rest IH]; intros st.
  - exists []; cbn [loop for_loop fst reported]; rewrite app_nil_r.
    split; [reflexivity|lia].
  - rewrite for_loop_cons.
    destruct (try_body_shape filepath st) as (l0 & Ht & Hshape).
    assert (Hacc : total_fixed (fst (body filepath st))
                   = total_fixed st + reported (OpenRead filepath :: l0)).
    { destruct Hshape as [(-> & _ & Htot & _)
                         |(content & fixed & _ & _ & _ & -> & Htot & _)];
        rewrite Htot; cbn [reported]; lia. }
    destruct (body filepath st) as [st' [e|]]; cbn [fst] in *.
    + destruct (is_Exception e);
        [destruct (report_cases filepath e st') as [-> | ->]|].
      * destruct (IH (emit (Print (ErrorWith filepath e)) st')) as (l & Hl & Hs).
        exists ((OpenRead filepath :: l0) ++ Print (ErrorWith filepath e) :: l).
        rewrite Hl, Hs; cbn [emit trace total_fixed]; rewrite Ht, Hacc.
        rewrite reported_app; cbn [reported].
        split; [rewrite <- !app_assoc; reflexivity|lia].
      * exists (OpenRead filepath :: l0); cbn [fst]; split; assumption.
      * exists (OpenRead filepath :: l0); cbn [fst]; split; assumption.
    + destruct (IH st') as (l & Hl & Hs).
      exists ((OpenRead filepath :: l0) ++ l).
      rewrite Hl, Hs, Ht, Hacc, reported_app.
      split; [rewrite <- !app_assoc; reflexivity|lia].
Qed.

(** X11: when the batch script ends normally, the last thing it prints is
    the total, and the total is the sum of the differences of the two
    counts of the lines it printed before, whether or not the files of
    these lines could be written. *)
Theorem fix_all_files_total (files_to_fix : list str) (disk : filesystem)
  (st : state filesystem error) :
  fix_all_files is_Exception read_text fix_text write_text str_of
    stdout_extra of_exn files_to_fix disk
  = (st, None) ->
  exists l, trace st = l ++ [Print (TotalFixed (reported l))].
Proof.
  unfold fix_all_files.
  destruct (for_loop_accounting files_to_fix (mkState disk [] 0))
    as (l & Hl & Hs); unfold loop in *.
  destruct (for_loop is_Exception read_text fix_text write_text str_of
              stdout_extra of_exn files_to_fix (mkState disk [] 0))
    as [st0 [e|]]; [discriminate|].
  cbn [fst trace total_fixed app] in *.
  rewrite print_TotalFixed.
  intros H; injection H as <-.
  exists l; cbn [emit trace]; rewrite Hl, Hs; reflexivity.
Qed.

(** X12: when no file of the batch that can be read holds a marker, the
    loop opens no file for writing: it leaves the file system and the
    total as they were. *)
Theorem for_loop_without_marker (files_to_fix : list str) :
  forall st,
    (forall filepath content,
        In filepath files_to_fix ->
        read_text filepath (fs st) = Ok content ->
        count_marker content = 0%nat) ->
    fs (fst (loop files_to_fix st)) = fs st /\
    total_fixed (fst (loop files_to_fix st)) = total_fixed st /\
    exists l, trace (fst (loop files_to_fix st)) = trace st ++ l /\
              writes l = [].
Proof.
  induction files_to_fix as [|filepath rest IH]; intros st Hclean.
  - cbn [loop for_loop fst]; repeat split.
    exists []; rewrite app_nil_r; split; reflexivity.
  - rewrite for_loop_cons.
    destruct (try_body_shape filepath st) as (l0 & Ht & Hshape).
    destruct Hshape as [(-> & Hfs & Htot & _)
                       |(content & fixed & R & _ & C & _)].
    2:{ rewrite (Hclean filepath content (or_introl eq_refl) R) in C; lia. }
    assert (Hnext : forall st' : state filesystem error, fs st' = fs st ->
              forall f content, In f rest ->
                read_text f (fs st') = Ok content -> count_marker content = 0%nat).
    { intros st' E f content Hin; rewrite E.
      apply Hclean; right; exact Hin. }
    destruct (body filepath st) as [st' [e|]]; cbn [fst] in *.
    + destruct (is_Exception e);
        [destruct (report_cases filepath e st') as [-> | ->]|].
      * destruct (IH (emit (Print (ErrorWith filepath e)) st')
                    (Hnext _ Hfs)) as (Hf & Hs & l & Hl & Hw).
        cbn [emit fs trace total_fixed] in *.
        rewrite Hf, Hs, Hl, Ht; repeat split; try assumption.
        exists ([OpenRead filepath; Print (ErrorWith filepath e)] ++ l).
        rewrite writes_app, Hw, <- !app_assoc; split; reflexivity.
      * cbn [fst]; repeat split; try assumption.
        exists [OpenRead filepath]; split; [exact Ht|reflexivity].
      * cbn [fst]; repeat split; try assumption.
        exists [OpenRead filepath]; split; [exact Ht|reflexivity].
    + destruct (IH st' (Hnext _ Hfs)) as (Hf & Hs & l & Hl & Hw).
      rewrite Hf, Hs, Hl, Ht; repeat split; try assumption.
      exists ([OpenRead filepath] ++ l).
      rewrite writes_app, Hw, <- !app_assoc; split; reflexivity.
Qed.

(** X13: a loop that ends normally has opened each file of the batch for
    reading exactly once, in the order of the batch, and has opened for
    writing only files of the batch. *)
Theorem for_loop_opens_each (files_to_fix : list str) :
  forall st st',
    loop files_to_fix st = (st', None) ->
    exists l, trace st' = trace st ++ l /\
              reads l = files_to_fix /\ incl (writes l) files_to_fix.
Proof.
  induction files_to_fix as [|filepath rest IH]; intros st st' H.
  - injection H as <-; exists []; rewrite app_nil_r.
    repeat split; apply incl_refl.
  - rewrite for_loop_cons in H.
    destruct (try_body_shape filepath st) as (l0 & Ht & Hshape).
    assert (Hrw : reads (OpenRead filepath :: l0) = [filepath] /\
                  incl (writes (OpenRead filepath :: l0)) [filepath]).
    { destruct Hshape as [(-> & _)|(content & fixed & _ & _ & _ & -> & _)];
        cbn [reads writes]; split; try reflexivity;
        [apply incl_nil_l|apply incl_refl]. }
    destruct Hrw as [Hr Hw].
    destruct (body filepath st) as [st1 [e|]]; cbn [fst] in *.
    + destruct (is_Exception e); [|discriminate].
      destruct (report_cases filepath e st1) as [E | E]; rewrite E in H;
        [|discriminate].
      apply IH in H as (l & Hl & Hreads & Hwrites).
      cbn [emit trace] in Hl.
      exists ((OpenRead filepath :: l0) ++ Print (ErrorWith filepath e) :: l).
      rewrite Hl, Ht, reads_app, writes_app, Hr; cbn [reads writes].
      rewrite Hreads; repeat split; [rewrite <- !app_assoc; reflexivity|].
      apply incl_app; [|apply incl_tl; exact Hwrites].
      intros f Hf; apply Hw in Hf; destruct Hf as [<-|[]]; left; reflexivity.
    + apply IH in H as (l & Hl & Hreads & Hwrites).
      exists ((OpenRead filepath :: l0) ++ l).
      rewrite Hl, Ht, reads_app, writes_app, Hr, Hreads.
      repeat split; [rewrite <- !app_assoc; reflexivity|].
      apply incl_app; [|apply incl_tl; exact Hwrites].
      intros f Hf; apply Hw in Hf; destruct Hf as [<-|[]]; left; reflexivity.
Qed.

(** X14: an exception that is not an instance of [Exception] is not
    caught: the script ends at the file that raised it, with that
    exception, without opening the files after it and without printing
    the total. *)
Theorem fix_all_files_stops (pre post : list str) (filepath : str)
  (disk : filesystem) (st0 st1 : state filesystem error) (e : error) :
  loop pre (mkState disk [] 0) = (st0, None) ->
  body filepath st0 = (st1, Some e) ->
  is_Exception e = false ->
  fix_all_files is_Exception read_text fix_text write_text str_of
    stdout_extra of_exn (pre ++ filepath :: post) disk
  = (st1, Some e).
Proof.
  intros Hpre Hbody Hexc; unfold fix_all_files.
  fold loop; rewrite for_loop_app, Hpre, for_loop_cons, Hbody, Hexc.
  reflexivity.
Qed.

(** From here on the calls to the environment raise instances of
    [Exception] only, and [sys.stdout] can write the text of every
    exception. *)
Hypothesis read_text_Exception :
  forall filepath disk e,
    read_text filepath disk = Raise e -> is_Exception e = true.
Hypothesis fix_text_Exception :
  forall text e, fix_text text = Raise e -> is_Exception e = true.
Hypothesis write_text_Exception :
  forall filepath text disk disk' e,
    write_text filepath text disk = (disk', Some e) -> is_Exception e = true.
Hypothesis str_of_encodes :
  forall e, forallb (stdout_encodes stdout_extra) (str_of e) = true.

(** For a file whose name [sys.stdout] can write, what the body raises is
    an [Exception]. *)
Lemma try_body_Exception (filepath : str) (st st' : state filesystem error)
  (e : error) :
  forallb (stdout_encodes stdout_extra) filepath = true ->
  body filepath st = (st', Some e) -> is_Exception e = true.
Proof.
  intros N; unfold body, try_body; cbn [emit fs trace total_fixed].
  destruct (read_text filepath (fs st)) as [content|e0] eqn:R.
  - destruct (fix_text content) as [fixed_content|e1] eqn:F.
    + destruct (0 <? count_marker content)%nat; [|discriminate].
      rewrite print_Counts by exact N.
      cbn [emit fs trace total_fixed].
      destruct (write_text filepath fixed_content (fs st)) as [fs' raised] eqn:W.
      intros H; injection H as _ ->.
      apply (write_text_Exception _ _ _ _ _ W).
    + intros H; injection H as _ <-.
      apply (fix_text_Exception _ _ F).
  - intros H; injection H as _ <-.
    apply (read_text_Exception _ _ _ R).
Qed.

(** One turn of the loop for such a file: the loop goes on, after the
    line of the error if the body raised. *)
Lemma for_loop_step (filepath : str) (rest : list str)
  (st : state filesystem error) :
  forallb (stdout_encodes stdout_extra) filepath = true ->
  loop (filepath :: rest) st
  = loop rest
      match body filepath st with
      | (st', None) => st'
      | (st', Some e) => emit (Print (ErrorWith filepath e)) st'
      end.
Proof.
  intros N; rewrite for_loop_cons.
  destruct (body filepath st) as [st' [e|]] eqn:B; [|reflexivity].
  rewrite (try_body_Exception filepath st st' e N B).
  unfold report; rewrite print_ErrorWith by auto.
  reflexivity.
Qed.


End FixAllFilesTrace.

Lemma fix_all_files_total_witness :
  snd toy_script = None /\
  exists l, trace (fst toy_script) = l ++ [Print (TotalFixed (reported l))].
Proof.
  assert (E : toy_script = (fst toy_script, None)) by (vm_compute; reflexivity).
  split; [rewrite E; reflexivity|].
  exact (fix_all_files_total _ _ _ _ _ _ _ _ _ _ _ _ E).
Defined.

Lemma for_loop_without_marker_witness :
  fs (fst (toy_loop [b_html; a_js] clean_start)) = fs clean_start /\
  total_fixed (fst (toy_loop [b_html; a_js] clean_start))
  = total_fixed clean_start /\
  exists l, trace (fst (toy_loop [b_html; a_js] clean_start))
            = trace clean_start ++ l /\
            writes l = [].
Proof.
  apply (for_loop_without_marker toy_disk exn (fun _ => true)
           toy_read repair toy_write toy_str_of (fun _ => true)
           (fun e => e) [b_html; a_js] clean_start).
  intros filepath content [<-|[<-|[]]] H; vm_compute in H;
    [injection H as <-; reflexivity|discriminate].
Defined.

Lemma for_loop_opens_each_witness :
  snd (toy_loop [a_js; b_html] toy_start) = None /\
  exists l, trace (fst (toy_loop [a_js; b_html] toy_start))
            = trace toy_start ++ l /\
            reads l = [a_js; b_html] /\ incl (writes l) [a_js; b_html].
Proof.
  assert (E : toy_loop [a_js; b_html] toy_start
              = (fst (toy_loop [a_js; b_html] toy_start), None))
    by (vm_compute; reflexivity).
  split; [rewrite E; reflexivity|].
  exact (for_loop_opens_each toy_disk exn (fun _ => true)
           toy_read repair toy_write toy_str_of (fun _ => true)
           (fun e => e) _ _ _ E).
Defined.

Lemma fix_all_files_stops_witness :
  fix_all_files caught_by_handler interrupted_read plain_fix plain_write
    plain_str_of (fun _ => true) Some
    ([a_js] ++ b_html :: [a_js]) (fs toy_start)
  = (mkState (fs toy_start)
       [OpenRead a_js; Print (ErrorWith a_js (Some UnicodeDecodeError));
        OpenRead b_html] 0,
     Some None).
Proof.
  apply (fix_all_files_stops toy_disk (option exn) caught_by_handler
           interrupted_read plain_fix plain_write plain_str_of
           (fun _ => true) Some [a_js] [a_js] b_html
           (fs toy_start)
           (mkState (fs toy_start)
              [OpenRead a_js; Print (ErrorWith a_js (Some UnicodeDecodeError))] 0));
    reflexivity.
Defined.



(** ** The scripts that rewrite [index.html] *)

Section ScriptsProperties.

Variable filesystem : Type.
Variable error : Type.
Variable is_Exception : error -> bool.
Variable read_text : str -> filesystem -> outcome error str.
Variable fix_text : str -> outcome error str.
Variable write_text : str -> str -> filesystem -> filesystem * option error.
Variable str_of : error -> str.
Variable stdout_extra : char -> bool.
Variable of_exn : exn -> error.

(** A message whose text is ASCII is always written. *)
Lemma print_message_ascii (m : message) (out : list message) :
  forallb is_ascii (text_of_message m) = true ->
  print_message stdout_extra of_exn m out = (out ++ [m], None).
Proof.
  intros H; unfold print_message.
  rewrite (stdout_encodes_ascii stdout_extra _ H); reflexivity.
Qed.




End ScriptsProperties.




(** ** Markers that are not mojibake *)

Lemma decode_marker_ascii (c : Z) (bs : bytes) :
  is_ascii c = true -> decode_utf8 (marker :: c :: bs) = Raise UnicodeDecodeError.
Proof.
  intros Hc; apply is_ascii_spec in Hc.
  unfold marker; cbn [decode_utf8].
  rewrite (between_false 0x00 0x7F 0xC3), (between_true 0xC2 0xDF 0xC3) by lia.
  unfold is_cont; rewrite between_false by lia; reflexivity.
Qed.

Lemma cp1252_byte_of_ascii (c : char) :
  is_ascii c = true -> cp1252_byte c = Some c.
Proof.
  unfold is_ascii, between, cp1252_byte; intros ->; reflexivity.
Qed.

Lemma fix_remaining_mojibake_marker_ascii (c : char) (rest : str) :
  is_ascii c = true ->
  fix_remaining_mojibake (marker :: c :: rest) = Ok (marker :: c :: rest).
Proof.
  intros Hc; rewrite fix_remaining_mojibake_cases; f_equal.
  assert (L : forall bs, encode_latin1 (marker :: c :: rest) = Ok bs ->
                         decode_utf8 bs = Raise UnicodeDecodeError).
  { intros bs E; apply encode_latin1_same in E; subst bs.
    apply decode_marker_ascii; exact Hc. }
  assert (C : forall bs, encode_cp1252 (marker :: c :: rest) = Ok bs ->
                         decode_utf8 bs = Raise UnicodeDecodeError).
  { intros bs E; cbn [encode_cp1252] in E.
    rewrite (cp1252_byte_of_ascii c Hc) in E.
    change (cp1252_byte marker) with (Some marker) in E.
    destruct (encode_cp1252 rest) as [bs'|]; [|discriminate].
    injection E as <-; apply decode_marker_ascii; exact Hc. }
  unfold redecode, bind.
  destruct (encode_latin1 (marker :: c :: rest)) as [bs|] eqn:E1;
    [rewrite (L bs eq_refl)|];
    (destruct (encode_cp1252 (marker :: c :: rest)) as [bs'|] eqn:E2;
     [rewrite (C bs' eq_refl)|]); reflexivity.
Qed.

Section Fixed.

Variable repl : str -> result str.

(** When the callback returns every fragment it is handed as it is, the
    pass returns the text as it is. *)
Lemma sub_from_fixed (s : str) :
  (forall a m rest, s = a ++ m ++ rest ->
                    pattern_match (m ++ rest) = Some m -> repl m = Ok m) ->
  forall skip, sub_from repl skip s = Ok (skipn skip s).
Proof.
  induction s as [|c t IH]; intros H skip; [destruct skip; reflexivity|].
  assert (Ht : forall a m rest, t = a ++ m ++ rest ->
                 pattern_match (m ++ rest) = Some m -> repl m = Ok m).
  { intros a m rest -> Hm; apply (H (c :: a) m rest); [reflexivity|exact Hm]. }
  cbn [sub_from]; destruct skip as [|k]; [|apply IH; exact Ht].
  cbn [skipn].
  destruct (pattern_match (c :: t)) as [m|] eqn:M.
  - pose proof M as M'.
    apply pattern_match_Some in M' as (_ & -> & _).
    pose proof (take_run_prefix 20 t) as Hsplit.
    rewrite (H [] (c :: take_run 20 t) (skipn (length (take_run 20 t)) t)).
    + cbn [bind length Nat.pred]; rewrite (IH Ht); cbn [bind app].
      rewrite <- Hsplit; reflexivity.
    + cbn [app]; rewrite <- Hsplit; reflexivity.
    + cbn [app]; rewrite <- Hsplit; exact M.
  - rewrite (IH Ht); reflexivity.
Qed.

End Fixed.

Lemma replacements_keys_head :
  Forall (fun entry => exists k, fst entry = marker :: 0x192 :: k) replacements.
Proof.
  apply (Forall_impl _ (P := fun entry : str * str =>
           starts_with [marker; 0x192] (fst entry) = true)).
  - intros entry H; apply starts_with_split in H.
    eexists; exact H.
  - apply forallb_Forall; vm_compute; reflexivity.
Qed.

(** X17: a marker that stands before an ASCII character is not mojibake
    and is left alone: a text in which every marker that has a character
    after it has an ASCII character after it is returned as it is. *)
Theorem repair_marker_before_ascii (text : str) :
  (forall pre c rest, text = pre ++ marker :: c :: rest -> is_ascii c = true) ->
  repair text = Ok text.
Proof.
  intros H; unfold repair, repair_with, re_sub.
  rewrite substitution_pass_absent.
  - apply sub_from_fixed with (skip := 0%nat).
    intros a m rest -> Hm.
    destruct m as [|c0 m'].
    { destruct rest; [discriminate|].
      apply pattern_match_Some in Hm as (_ & Hm & _); discriminate. }
    cbn [app] in Hm; pose proof Hm as Hm'.
    apply pattern_match_Some in Hm' as (-> & Em & Hne).
    injection Em as Em.
    destruct m' as [|c run]; [exfalso; apply Hne; symmetry; exact Em|].
    apply fix_remaining_mojibake_marker_ascii.
    apply (H a c (run ++ rest)); reflexivity.
  - intros bad good Hin (a & b & E).
    destruct (proj1 (Forall_forall _ _) replacements_keys_head _ Hin) as [k Hk].
    cbn [fst] in Hk; subst bad.
    specialize (H a 0x192 (k ++ b) E); discriminate.
Qed.

Lemma repair_marker_before_ascii_witness :
  repair [0x4E; 0xC3; 0x4F] = Ok [0x4E; 0xC3; 0x4F].
Proof.
  apply repair_marker_before_ascii.
  intros pre c rest E.
  destruct pre as [|p0 [|p1 [|p2 pre]]]; try discriminate;
    injection E as E; subst; try discriminate; try reflexivity.
  destruct pre; discriminate.
Defined.
